(** * legendary: aggregation and classification of Go coverage profiles

    A shallow embedding of the engine of legendary (src/unnamed/part_001,
    the version with [ingestCoverageFile], [buildFileCoverage],
    [collectCoverageContext] and [printHitlist], and src/main.go).

    - Go [int] values (line numbers, execution counts) are [Z]; the
      64-bit wrap-around of [+=] on counts is written out as [int_wrap].
    - [map[int]int] is [gmap Z Z]; [map[string]*result] is
      [gmap string result].  The map holds pointers, and the code mutates
      the pointed-to result in place; the mutation is modelled as an
      insertion of the updated record under the same key.
    - Go's randomised map iteration order is an explicit argument: any
      permutation of [map_to_list] of the map being ranged over.
    - [float64] is Rocq's primitive binary64 [float].
    - The external collaborators (cover.ParseProfiles, filepath.Join
      followed by filepath.Rel, os.Open followed by reading the file) are
      Section variables: every theorem holds for all of them. *)

From Stdlib Require Import ZArith Lia List Permutation Sorted.
From Stdlib Require Import Floats.
From Stdlib Require Uint63.
From stdpp Require Import base gmap list strings.

Import ListNotations.

(* ------------------------------------------------------------------ *)
(** ** Data model *)

(** Go's [int] is 64 bits wide; [a + b] wraps modulo 2^64 into the
    signed range. *)
Definition int_wrap (z : Z) : Z :=
  ((z + 2 ^ 63) mod 2 ^ 64 - 2 ^ 63)%Z.

(** [cover.ProfileBlock], restricted to the fields the engine reads. *)
Record ProfileBlock := mkBlock {
  StartLine : Z;
  EndLine : Z;
  Count : Z
}.

(** [cover.Profile], restricted to the fields the engine reads. *)
Record Profile := mkProfile {
  FileName : string;
  Blocks : list ProfileBlock
}.

(** [type result struct { filename; lines; counts; Hits; Misses; Ignored }] *)
Record result := mkResult {
  filename : string;
  lines : Z;
  counts : gmap Z Z;
  Hits : list Z;
  Misses : list Z;
  Ignored : list Z
}.

(** [type context struct { Now int64; Results map[string]*result }] *)
Record context := mkContext {
  Now : Z;
  Results : gmap string result
}.

Definition set_lines (n : Z) (r : result) : result :=
  mkResult (filename r) n (counts r) (Hits r) (Misses r) (Ignored r).

Definition set_counts (cs : gmap Z Z) (r : result) : result :=
  mkResult (filename r) (lines r) cs (Hits r) (Misses r) (Ignored r).

Definition set_Results (m : gmap string result) (ctx : context) : context :=
  mkContext (Now ctx) m.

(** [&result{filename: rn, counts: make(map[int]int)}] *)
Definition new_result (rn : string) : result :=
  mkResult rn 0 ∅ [] [] [].

(* ------------------------------------------------------------------ *)
(** ** lineCounter *)

(** [lineCounter] counts the ['\n'] bytes of the file (chunking into
    32 KiB reads does not change the total). *)
Fixpoint lineCounter (bs : list Byte.byte) : Z :=
  match bs with
  | [] => 0%Z
  | b :: bs' => ((if Byte.eqb b Byte.x0a then 1 else 0) + lineCounter bs')%Z
  end.

(* ------------------------------------------------------------------ *)
(** ** Classification (the loop of buildFileCoverage) *)

(** The three arms of the [switch] in [buildFileCoverage]:
    [case !ok] → Ignored, [case c > 0] → Hits, [default] → Misses. *)
Inductive kind := KHit | KMiss | KIgnored.

Definition kind_eqb (a b : kind) : bool :=
  match a, b with
  | KHit, KHit | KMiss, KMiss | KIgnored, KIgnored => true
  | _, _ => false
  end.

Definition line_kind (cs : gmap Z Z) (ln : Z) : kind :=
  match cs !! ln with
  | None => KIgnored
  | Some c => if (0 <? c)%Z then KHit else KMiss
  end.

(** One iteration: [c, ok := r.counts[ln]] and the [append]. *)
Definition classify_line (r : result) (ln : Z) : result :=
  match line_kind (counts r) ln with
  | KIgnored => mkResult (filename r) (lines r) (counts r) (Hits r) (Misses r) (Ignored r ++ [ln])
  | KHit => mkResult (filename r) (lines r) (counts r) (Hits r ++ [ln]) (Misses r) (Ignored r)
  | KMiss => mkResult (filename r) (lines r) (counts r) (Hits r) (Misses r ++ [ln]) (Ignored r)
  end.

(** [for ln := 0; ln < r.lines; ln++ { ... }] *)
Definition classify (r : result) : result :=
  fold_left classify_line (seqZ 0 (lines r)) r.

(* ------------------------------------------------------------------ *)
(** ** Derived metrics *)

Definition MissCount (r : result) : nat := length (Misses r).
Definition HitCount (r : result) : nat := length (Hits r).

(** [float64] of a non-negative Go [int]. *)
Definition float64_of_nat (n : nat) : float :=
  PrimFloat.of_uint63 (Uint63.of_Z (Z.of_nat n)).

(** [float64(mc) / float64(hc+mc)], with no guard on the divisor. *)
Definition MissFraction (r : result) : float :=
  let hc := HitCount r in
  let mc := MissCount r in
  (float64_of_nat mc / float64_of_nat (hc + mc))%float.

(* ------------------------------------------------------------------ *)
(** ** The engine *)

Section Engine.

(** [cover.ParseProfiles(fp)]: [None] is a parse error. *)
Variable ParseProfiles : string -> option (list Profile).

(** [filepath.Rel(projRoot, filepath.Join(coverageRoot, name))] for the
    configured roots: [None] is the error of [filepath.Rel]. *)
Variable canonical : string -> option string.

(** [os.Open(filepath.Join(projRoot, f))] and [lineCounter] reading it to
    EOF: [None] when the open or a read fails, else the file's bytes. *)
Variable read_source : string -> option (list Byte.byte).

(** [r.counts[ln] += pb.Count] (a missing key reads as 0). *)
Definition add_count (c : Z) (cs : gmap Z Z) (ln : Z) : gmap Z Z :=
  <[ln := int_wrap (default 0%Z (cs !! ln) + c)]> cs.

(** [for ln := pb.StartLine; ln <= pb.EndLine; ln++ { ... }] *)
Definition ingest_block (cs : gmap Z Z) (pb : ProfileBlock) : gmap Z Z :=
  fold_left (add_count (Count pb)) (seqZ (StartLine pb) (EndLine pb - StartLine pb + 1)) cs.

(** The body of [for _, p := range ps] in [ingestCoverageFile]; a
    [filepath.Rel] error [return]s, skipping the remaining profiles. *)
Fixpoint ingest_profiles (ps : list Profile) (res : gmap string result)
    : gmap string result :=
  match ps with
  | [] => res
  | p :: ps' =>
      match canonical (FileName p) with
      | None => res
      | Some rn =>
          let r := match res !! rn with
                   | Some r => r
                   | None => new_result rn
                   end in
          let r' := set_counts (fold_left ingest_block (Blocks p) (counts r)) r in
          ingest_profiles ps' (<[rn := r']> res)
      end
  end.

(** [ingestCoverageFile(ctx, coverageRoot, projRoot, fp)] *)
Definition ingestCoverageFile (ctx : context) (fp : string) : context :=
  match ParseProfiles fp with
  | None => ctx
  | Some ps => set_Results (ingest_profiles ps (Results ctx)) ctx
  end.

(** [buildFileCoverage(ctx, projRoot, f, r)] *)
Definition buildFileCoverage (ctx : context) (f : string) (r : result) : context :=
  match read_source f with
  | None => set_Results (delete f (Results ctx)) ctx
  | Some bs =>
      let r1 := set_lines (lineCounter bs) r in
      set_Results (<[f := classify r1]> (Results ctx)) ctx
  end.

(** The first loop of [collectCoverageContext], from an empty context. *)
Definition ingest_all (sourceFiles : list string) : context :=
  fold_left ingestCoverageFile sourceFiles (mkContext 0 ∅).

(** [for f, r := range ctx.Results { buildFileCoverage(&ctx, projRoot, f, r) }]
    visiting the entries in the order [order]. *)
Definition build_all (order : list (string * result)) (ctx : context) : context :=
  fold_left (fun c fr => buildFileCoverage c fr.1 fr.2) order ctx.

(** A legal iteration order of [range m]: each entry once, in any order. *)
Definition range_order (m : gmap string result) (order : list (string * result)) : Prop :=
  order ≡ₚ map_to_list m.

(** [collectCoverageContext(coverageRoot, projRoot, sourceFiles)], the map
    being ranged over in the order [order], and [now] the value of
    [time.Now().Unix()]. *)
Definition collectCoverageContext (now : Z) (order : list (string * result))
    (sourceFiles : list string) : context :=
  let ctx := build_all order (ingest_all sourceFiles) in
  mkContext now (Results ctx).

End Engine.

(** The entry the classification loop leaves under key [f] for the
    tally [r]: dropped on a read failure, classified otherwise. *)
Definition classified_entry (read_source : string -> option (list Byte.byte))
    (f : string) (r : result) : option result :=
  match read_source f with
  | None => None
  | Some bs => Some (classify (set_lines (lineCounter bs) r))
  end.

(** A fresh tally: nothing classified yet. *)
Definition is_tally (r : result) : Prop :=
  Hits r = [] /\ Misses r = [] /\ Ignored r = [].

(** The lines of [l] that the switch sends to arm [k]. *)
Definition select (cs : gmap Z Z) (k : kind) (l : list Z) : list Z :=
  List.filter (fun ln => kind_eqb (line_kind cs ln) k) l.

(* ------------------------------------------------------------------ *)
(** ** Ingestion as a sequence of elementary map updates

    [ingestCoverageFile] touches the entry of a canonical path (look up
    or create) and then performs [r.counts[ln] += c] once per line of each
    block.  These two kinds of step are the [tally_op]s below; the proofs
    show that ingestion is exactly their left fold. *)

Inductive tally_op :=
| Touch (rn : string)
| Add (rn : string) (ln : Z) (c : Z).

Definition op_key (o : tally_op) : string :=
  match o with Touch rn => rn | Add rn _ _ => rn end.

Definition apply_op (m : gmap string result) (o : tally_op) : gmap string result :=
  match o with
  | Touch rn => <[rn := default (new_result rn) (m !! rn)]> m
  | Add rn ln c =>
      let r := default (new_result rn) (m !! rn) in
      <[rn := set_counts (add_count c (counts r) ln) r]> m
  end.

Definition block_ops (rn : string) (pb : ProfileBlock) : list tally_op :=
  map (fun ln => Add rn ln (Count pb)) (seqZ (StartLine pb) (EndLine pb - StartLine pb + 1)).

Fixpoint profile_ops (canon : string -> option string) (ps : list Profile) : list tally_op :=
  match ps with
  | [] => []
  | p :: ps' =>
      match canon (FileName p) with
      | None => []
      | Some rn => Touch rn :: flat_map (block_ops rn) (Blocks p) ++ profile_ops canon ps'
      end
  end.

Definition file_ops (pp : string -> option (list Profile)) (canon : string -> option string)
    (fp : string) : list tally_op :=
  match pp fp with
  | None => []
  | Some ps => profile_ops canon ps
  end.

(** Does some step of [O] concern key [k]? *)
Definition touched (O : list tally_op) (k : string) : bool :=
  existsb (fun o => bool_decide (op_key o = k)) O.

(** The [(line, count)] additions that [O] makes to key [k], in order. *)
Definition line_ops (O : list tally_op) (k : string) : list (Z * Z) :=
  flat_map (fun o => match o with
                     | Add rn ln c => if bool_decide (rn = k) then [(ln, c)] else []
                     | Touch _ => []
                     end) O.

Definition line_fold (L : list (Z * Z)) (cs : gmap Z Z) : gmap Z Z :=
  fold_left (fun cs lc => add_count lc.2 cs lc.1) L cs.

(** The counts added to line [ln], in order. *)
Definition line_adds (L : list (Z * Z)) (ln : Z) : list Z :=
  map snd (List.filter (fun lc => bool_decide (lc.1 = ln)) L).

Definition sum_counts (A : list Z) : Z := fold_right Z.add 0%Z A.

(** The steps of one [Profile] record whose name canonicalises. *)
Definition record_ops (canon : string -> option string) (p : Profile) : list tally_op :=
  match canon (FileName p) with
  | None => []
  | Some rn => Touch rn :: flat_map (block_ops rn) (Blocks p)
  end.

(** A result with every count doubled in Go [int] arithmetic. *)
Definition double_counts (r : result) : result :=
  set_counts ((fun c => int_wrap (2 * c)) <$> counts r) r.

(** The [Profile] records of all the profile files that parse. *)
Definition parsed_profiles (pp : string -> option (list Profile)) (files : list string)
    : list Profile :=
  flat_map (fun fp => default [] (pp fp)) files.

(* ------------------------------------------------------------------ *)
(** ** Ranking: printHitlist *)

(** [sort.Sort] on a slice of at most 6 elements (at most 12 since
    Go 1.19) is Go's [insertionSort]:
      for i := a + 1; i < b; i++ {
        for j := i; j > a && data.Less(j, j-1); j-- { data.Swap(j, j-1) }
      }
    Element [i] moves left past every predecessor it is [Less] than.
    Below, the sorted prefix is kept reversed, so the moving element meets
    its nearest predecessor first.  Longer slices are sorted by other
    algorithms, see printHitlist. *)
Fixpoint insert_back {A} (less : A -> A -> bool) (x : A) (rprefix : list A) : list A :=
  match rprefix with
  | [] => [x]
  | y :: ys => if less x y then y :: insert_back less x ys else x :: y :: ys
  end.

Definition insertionSort {A} (less : A -> A -> bool) (l : list A) : list A :=
  rev (fold_left (fun acc x => insert_back less x acc) l []).

(** [resultsByLines.Less] *)
Definition lessByLines (a b : result) : bool :=
  Nat.ltb (MissCount a) (MissCount b).

(** [resultsByPercentage.Less] *)
Definition lessByPercentage (a b : result) : bool :=
  PrimFloat.ltb (MissFraction a) (MissFraction b).

(** [sort.Reverse(data).Less(i, j)] is [data.Less(j, i)]. *)
Definition Reverse {A} (less : A -> A -> bool) (a b : A) : bool := less b a.

(** A legal visiting order of [for _, v := range ctx.Results]. *)
Definition values_order (m : gmap string result) (vs : list result) : Prop :=
  vs ≡ₚ (map_to_list m).*2.

(** One printed row: [rps[i][0].filename, rps[i][0].MissCount(),
    rps[i][1].filename, rps[i][1].MissFraction()*100]. *)
Definition hit_row : Type := (string * nat * string * float)%type.

(** [for i := range rs { rps = append(rps, [2]*result{rs[i], ps[i]}) }];
    an out-of-range [ps[i]] panics ([None]). *)
Fixpoint pair_up (rs ps : list result) : option (list (result * result)) :=
  match rs, ps with
  | [], _ => Some []
  | r :: rs', p :: ps' => (fun t => (r, p) :: t) <$> pair_up rs' ps'
  | _ :: _, [] => None
  end.

(** The row for index [i] (here [i >= 0]); an out-of-range [rps[i]]
    panics ([None]). *)
Definition row_at (rps : list (result * result)) (i : Z) : option hit_row :=
  match rps !! Z.to_nat i with
  | Some (a, b) => Some (filename a, MissCount a, filename b, (MissFraction b * 100)%float)
  | None => None
  end.

(** [for i := 0; i < limit; i++ { fmt.Fprintf(tabs, ...) }] *)
Fixpoint emit_rows (rps : list (result * result)) (is : list Z) : option (list hit_row) :=
  match is with
  | [] => Some []
  | i :: is' =>
      match row_at rps i with
      | None => None
      | Some row => (fun t => row :: t) <$> emit_rows rps is'
      end
  end.

(** [printHitlist(ctx, limit)]: its two [range ctx.Results] loops visit
    the results in the orders [vs_lines] and [vs_pct].  [None] is a
    runtime panic (the tabwriter is never flushed, nothing is printed);
    [Some rows] are the rows flushed to stdout after the header.
    [sort_Sort less s] is the slice [s] after [sort.Sort] with [Less]
    given by [less].  Which permutation [sort.Sort] picks depends on the
    Go release beyond 6 elements (beyond 12 since Go 1.19, where it stops
    being [insertionSort] above): quickSort with a Shell pass, or pdqsort.
    So the library sort is a parameter here; it only ever calls [Swap],
    and the theorems about printHitlist assume no more than that its
    result is a permutation of its input. *)
Definition printHitlist (sort_Sort : (result -> result -> bool) -> list result -> list result)
    (vs_lines vs_pct : list result) (limit : Z) : option (list hit_row) :=
  let rs := sort_Sort (Reverse lessByLines) vs_lines in
  let ps := sort_Sort (Reverse lessByPercentage) vs_pct in
  match pair_up rs ps with
  | None => None
  | Some rps =>
      let limit := if Z.eqb limit 0 then Z.of_nat (length rps) else limit in
      emit_rows rps (seqZ 0 limit)
  end.

(* ------------------------------------------------------------------ *)
(** ** A sample run

    Two profile files: [c.out] covers line 1 of [main.go] once with count
    2 and lines 2..5 with count 0, and line 0 of [gone.go] with count 1;
    [d.out] covers line 3 of [main.go] with count 1.  Paths canonicalise to
    themselves; [main.go] has 4 newlines, [gone.go] cannot be opened. *)
Definition sample_ParseProfiles (fp : string) : option (list Profile) :=
  if String.eqb fp "c.out"%string then
    Some [mkProfile "main.go"%string [mkBlock 1 1 2; mkBlock 2 5 0];
          mkProfile "gone.go"%string [mkBlock 0 0 1]]
  else if String.eqb fp "d.out"%string then
    Some [mkProfile "main.go"%string [mkBlock 3 3 1]]
  else None.

Definition sample_canonical (name : string) : option string := Some name.

Definition sample_read_source (f : string) : option (list Byte.byte) :=
  if String.eqb f "main.go"%string then
    Some [Byte.x61; Byte.x0a; Byte.x0a; Byte.x0a; Byte.x0a]
  else None.

Definition sample_files : list string := ["c.out"%string].

(** The iteration order of the classification loop: the map's own listing. *)
Definition sample_order (files : list string) : list (string * result) :=
  map_to_list (Results (ingest_all sample_ParseProfiles sample_canonical files)).

Definition sample_counts : gmap Z Z :=
  {[ 1%Z := 2%Z; 2%Z := 0%Z; 3%Z := 0%Z; 4%Z := 0%Z; 5%Z := 0%Z ]}.

(** The tally of [main.go] after [c.out], its line count set. *)
Definition sample_tally : result := mkResult "main.go"%string 4 sample_counts [] [] [].

(** The classified result of [main.go]. *)
Definition sample_result : result := mkResult "main.go"%string 4 sample_counts [1%Z] [2%Z; 3%Z] [0%Z].

(** A binary64 value in [0,1]: +0, or a positive finite [m * 2^e] with
    [e <= 0] and [m <= 2^(-e)]. *)
Definition le_one_SF (x : spec_float) : Prop :=
  match x with
  | S754_zero false => True
  | S754_finite false m e => (e <= 0)%Z /\ (Zpos m <= 2 ^ (- e))%Z
  | _ => False
  end.

(* ------------------------------------------------------------------ *)
(** ** Reading a source file, escaping, printed rows, src/main.go *)

(** Errors returned by an [io.Reader]: [io.EOF] or any other error. *)
Inductive go_error := EOF | ErrOther (msg : string).

(** [bytes.Count(s, []byte{sep})] for a one-byte separator. *)
Fixpoint bytes_Count (s : list Byte.byte) (sep : Byte.byte) : Z :=
  match s with
  | [] => 0%Z
  | b :: s' => ((if Byte.eqb b sep then 1 else 0) + bytes_Count s' sep)%Z
  end.

(** One call [r.Read(buf)]: the bytes [buf[:c]] and [err] ([None] is nil). *)
Definition read_result : Type := (list Byte.byte * option go_error)%type.

(** The loop of [lineCounter] on a reader answering its successive
    [Read] calls with [reads].  [None]: the loop does not return (a slice
    [buf[:c]] past the 32 KiB buffer panics, or the answers run out). *)
Fixpoint lineCounter_loop (reads : list read_result) (count : Z) : option (Z * option go_error) :=
  match reads with
  | [] => None
  | (chunk, err) :: reads' =>
      if (32 * 1024 <? Z.of_nat (length chunk))%Z then None
      else
        let count := int_wrap (count + bytes_Count chunk Byte.x0a) in
        match err with
        | Some EOF => Some (count, None)
        | Some e => Some (count, Some e)
        | None => lineCounter_loop reads' count
        end
  end.

(** [lineCounter(r)]: [count := 0], then the loop. *)
Definition lineCounter_io (reads : list read_result) : option (Z * option go_error) :=
  lineCounter_loop reads 0.

(** [p[n] = b]: out of range panics. *)
Definition go_store (p : list Byte.byte) (n : nat) (b : Byte.byte) : option (list Byte.byte) :=
  if n <? length p then Some (<[n := b]> p) else None.

(** The [for ; i < len(new) && n < len(p); i, n = i+1, n+1] loop of
    [escaper.Read]; [nw] is [new[i:]].  Returns the final [i], [n], [p]. *)
Fixpoint escape_loop (nw : list Byte.byte) (i n : nat) (p : list Byte.byte)
    : option (nat * nat * list Byte.byte) :=
  match nw with
  | [] => Some (i, n, p)
  | b :: nw' =>
      if n <? length p then
        if Byte.eqb b Byte.x22 || Byte.eqb b Byte.x5c then
          match go_store p n Byte.x5c with
          | None => None
          | Some p1 =>
              match go_store p1 (S n) b with
              | None => None
              | Some p2 => escape_loop nw' (S i) (S (S n)) p2
              end
          end
        else if Byte.eqb b Byte.x0a then
          match go_store p n Byte.x5c with
          | None => None
          | Some p1 =>
              match go_store p1 (S n) Byte.x6e with
              | None => None
              | Some p2 => escape_loop nw' (S i) (S (S n)) p2
              end
          end
        else
          match go_store p n b with
          | None => None
          | Some p1 => escape_loop nw' (S i) (S n) p1
          end
      else Some (i, n, p)
  end.

(** [(e *escaper) Read(p)] with [e.old = old], the inner [e.r.Read(new)]
    answering [rd].  Returns [p] after the call, [n], [err] and the new
    [e.old]; [None] is a panic. *)
Definition escaper_Read (old p : list Byte.byte) (rd : read_result)
    : option (list Byte.byte * nat * option go_error * list Byte.byte) :=
  if length p <? length old then None
  else
    let k := (length p - length old)%nat in
    let '(chunk, err) := rd in
    if k <? length chunk then None
    else
      let nw := old ++ chunk in
      match escape_loop nw 0 0 p with
      | None => None
      | Some (i, n, p') =>
          if length p <? i then
            let j := (Z.of_nat (length nw) - (Z.of_nat (length p) - Z.of_nat i))%Z in
            if (0 <=? j)%Z && (j <=? Z.of_nat (length nw))%Z
            then Some (p', n, err, drop (Z.to_nat j) nw)
            else None
          else Some (p', n, err, [])
      end.

(** The escaping [escaper.Read] performs, byte by byte: a double quote
    (0x22) and a backslash (0x5c) are preceded by a backslash, a newline
    (0x0a) becomes a backslash and the letter n (0x6e). *)
Definition escape_byte (b : Byte.byte) : list Byte.byte :=
  if Byte.eqb b Byte.x22 || Byte.eqb b Byte.x5c then [Byte.x5c; b]
  else if Byte.eqb b Byte.x0a then [Byte.x5c; Byte.x6e]
  else [b].

Definition escape_bytes (bs : list Byte.byte) : list Byte.byte := flat_map escape_byte bs.

(** [p] with [xs] written from index [n] on. *)
Definition splice (p : list Byte.byte) (n : nat) (xs : list Byte.byte) : list Byte.byte :=
  take n p ++ xs ++ drop (n + length xs) p.

(** The row printed for a pair of results. *)
Definition hit_row_of (ab : result * result) : hit_row :=
  (filename ab.1, MissCount ab.1, filename ab.2, (MissFraction ab.2 * 100)%float).

(** All the rows of the two orderings, paired index by index, for the
    library sort [sort_Sort] (see printHitlist). *)
Definition hitlist_rows (sort_Sort : (result -> result -> bool) -> list result -> list result)
    (vs_lines vs_pct : list result) : list hit_row :=
  map hit_row_of (zip (sort_Sort (Reverse lessByLines) vs_lines)
                      (sort_Sort (Reverse lessByPercentage) vs_pct)).

(** src/main.go's [type result struct { counts; Hits; Misses; Ignored }]. *)
Record main_result := mkMainResult {
  m_counts : gmap Z Z;
  m_Hits : list Z;
  m_Misses : list Z;
  m_Ignored : list Z
}.

(** The body of [for _, p := range ps] in src/main.go's [main]: a
    [filepath.Rel] error [continue]s with the next profile. *)
Fixpoint main_ingest_profiles (canonical : string -> option string) (ps : list Profile)
    (res : gmap string main_result) : gmap string main_result :=
  match ps with
  | [] => res
  | p :: ps' =>
      match canonical (FileName p) with
      | None => main_ingest_profiles canonical ps' res
      | Some rn =>
          let r := match res !! rn with
                   | Some r => r
                   | None => mkMainResult ∅ [] [] []
                   end in
          let r' := mkMainResult (fold_left ingest_block (Blocks p) (m_counts r))
                                 (m_Hits r) (m_Misses r) (m_Ignored r) in
          main_ingest_profiles canonical ps' (<[rn := r']> res)
      end
  end.

(** A path canonicaliser for the examples: [filepath.Rel] fails on one name. *)
Definition bad_canonical (name : string) : option string :=
  if String.eqb name "../bad.go"%string then None else Some name.

(* ================================================================== *)
(** * Proofs *)

(* ------------------------------------------------------------------ *)
(** ** Classification *)

Lemma kind_eqb_true a b : kind_eqb a b = true <-> a = b.
Proof. destruct a, b; simpl; intuition congruence. Qed.

Lemma classify_fold_fields (l : list Z) (r : result) :
  let r' := fold_left classify_line l r in
  filename r' = filename r /\ lines r' = lines r /\ counts r' = counts r /\
  Hits r' = Hits r ++ select (counts r) KHit l /\
  Misses r' = Misses r ++ select (counts r) KMiss l /\
  Ignored r' = Ignored r ++ select (counts r) KIgnored l.
Proof.
  revert r; induction l as [|ln l IH]; intros r; simpl.
  - unfold select; simpl. rewrite !app_nil_r. auto 10.
  - destruct (IH (classify_line r ln)) as (Hf & Hl & Hc & Hh & Hm & Hi).
    unfold classify_line in *.
    destruct (line_kind (counts r) ln) eqn:Hk; simpl in *;
      repeat split; try rewrite Hh; try rewrite Hm; try rewrite Hi; auto;
      rewrite <- app_assoc; reflexivity.
Qed.

Lemma classify_fields (r : result) :
  let r' := classify r in
  filename r' = filename r /\ lines r' = lines r /\ counts r' = counts r /\
  Hits r' = Hits r ++ select (counts r) KHit (seqZ 0 (lines r)) /\
  Misses r' = Misses r ++ select (counts r) KMiss (seqZ 0 (lines r)) /\
  Ignored r' = Ignored r ++ select (counts r) KIgnored (seqZ 0 (lines r)).
Proof. apply classify_fold_fields. Qed.

Lemma In_select cs k l ln :
  In ln (select cs k l) <-> In ln l /\ line_kind cs ln = k.
Proof. unfold select. rewrite filter_In, kind_eqb_true. tauto. Qed.

Lemma select_partition cs (l : list Z) :
  Permutation (select cs KHit l ++ select cs KMiss l ++ select cs KIgnored l) l.
Proof.
  induction l as [|ln l IH]; simpl; [constructor|].
  unfold select in *; simpl.
  destruct (line_kind cs ln); simpl.
  - constructor. exact IH.
  - symmetry. apply Permutation_cons_app. symmetry. exact IH.
  - symmetry. rewrite app_assoc. apply Permutation_cons_app.
    rewrite <- app_assoc. symmetry. exact IH.
Qed.

Lemma seqZ_sorted (m : Z) (k : nat) : StronglySorted Z.lt (seqZ m (Z.of_nat k)).
Proof.
  revert m; induction k as [|k IH]; intros m.
  - rewrite seqZ_nil by lia. constructor.
  - rewrite seqZ_cons by lia.
    replace (Z.pred (Z.of_nat (S k))) with (Z.of_nat k) by lia.
    constructor; [apply IH|].
    apply Forall_forall. intros x Hx.
    apply elem_of_seqZ in Hx. lia.
Qed.

Lemma seqZ_sorted_any (m n : Z) : StronglySorted Z.lt (seqZ m n).
Proof.
  destruct (Z_le_gt_dec n 0) as [Hn|Hn].
  - rewrite seqZ_nil by lia. constructor.
  - replace n with (Z.of_nat (Z.to_nat n)) by lia. apply seqZ_sorted.
Qed.

Lemma filter_sorted (f : Z -> bool) (l : list Z) :
  StronglySorted Z.lt l -> StronglySorted Z.lt (List.filter f l).
Proof.
  induction 1 as [|x l Hs IH Hall]; simpl; [constructor|].
  destruct (f x); [|exact IH].
  constructor; [exact IH|].
  rewrite List.Forall_forall in *. intros y Hy. apply filter_In in Hy. apply Hall, Hy.
Qed.

Lemma classify_tally_fields (r : result) :
  is_tally r ->
  let r' := classify r in
  filename r' = filename r /\ lines r' = lines r /\ counts r' = counts r /\
  Hits r' = select (counts r) KHit (seqZ 0 (lines r)) /\
  Misses r' = select (counts r) KMiss (seqZ 0 (lines r)) /\
  Ignored r' = select (counts r) KIgnored (seqZ 0 (lines r)).
Proof.
  intros (H1 & H2 & H3).
  destruct (classify_fields r) as (? & ? & ? & Hh & Hm & Hi).
  cbv zeta. rewrite Hh, Hm, Hi, H1, H2, H3. auto 10.
Qed.

Lemma lineCounter_nonneg (bs : list Byte.byte) : (0 <= lineCounter bs)%Z.
Proof. induction bs as [|b bs IH]; simpl; [lia|]. destruct (Byte.eqb b Byte.x0a); lia. Qed.

(* ------------------------------------------------------------------ *)
(** ** The classification loop over the results map *)

Lemma buildFileCoverage_lookup rs ctx f r k :
  Results (buildFileCoverage rs ctx f r) !! k =
  if decide (k = f) then classified_entry rs f r else Results ctx !! k.
Proof.
  unfold buildFileCoverage, classified_entry.
  destruct (rs f); simpl; destruct (decide (k = f)) as [->|Hne].
  - apply lookup_insert_eq.
  - apply lookup_insert_ne. congruence.
  - apply lookup_delete_eq.
  - apply lookup_delete_ne. congruence.
Qed.

Lemma build_all_notin rs (order : list (string * result)) ctx k :
  k ∉ order.*1 -> Results (build_all rs order ctx) !! k = Results ctx !! k.
Proof.
  revert ctx; induction order as [|[f r] order IH]; intros ctx Hk; simpl; [done|].
  rewrite IH by set_solver.
  rewrite buildFileCoverage_lookup. destruct (decide (k = f)); [set_solver|done].
Qed.

Lemma build_all_in rs (order : list (string * result)) ctx k r :
  NoDup order.*1 -> (k, r) ∈ order ->
  Results (build_all rs order ctx) !! k = classified_entry rs k r.
Proof.
  revert ctx; induction order as [|[f r0] order IH]; intros ctx Hnd Hin; simpl.
  - set_solver.
  - simpl in Hnd. apply NoDup_cons in Hnd as [Hf Hnd].
    apply elem_of_cons in Hin as [Heq|Hin].
    + injection Heq as -> ->.
      rewrite build_all_notin by exact Hf.
      rewrite buildFileCoverage_lookup. by rewrite decide_True.
    + by apply IH.
Qed.

Lemma build_all_range rs (m : gmap string result) order t k :
  range_order m order ->
  Results (build_all rs order (mkContext t m)) !! k = m !! k ≫= classified_entry rs k.
Proof.
  unfold range_order. intros Hperm.
  destruct (m !! k) as [r|] eqn:Hk; simpl.
  - apply build_all_in.
    + rewrite Hperm. apply NoDup_fst_map_to_list.
    + rewrite Hperm. by apply elem_of_map_to_list.
  - rewrite build_all_notin; [done|].
    intros Hin. apply list_elem_of_fmap in Hin as ([k' r] & -> & Hin). simpl in *.
    rewrite Hperm, elem_of_map_to_list in Hin. congruence.
Qed.

(* ------------------------------------------------------------------ *)
(** ** Ingestion keeps fresh tallies keyed by their filename *)

Definition tally_inv (m : gmap string result) : Prop :=
  map_Forall (fun k r => filename r = k /\ is_tally r) m.

Lemma ingest_profiles_inv canon (ps : list Profile) (m : gmap string result) :
  tally_inv m -> tally_inv (ingest_profiles canon ps m).
Proof.
  revert m; induction ps as [|p ps IH]; intros m Hm; simpl; [done|].
  destruct (canon (FileName p)) as [rn|]; [|done].
  apply IH. apply map_Forall_insert_2; [|done].
  destruct (m !! rn) as [r|] eqn:Hr.
  - apply Hm in Hr as [Hf Ht]. split; [exact Hf|exact Ht].
  - split; [reflexivity|]. repeat split.
Qed.

Lemma ingest_all_inv pp canon (sourceFiles : list string) :
  tally_inv (Results (ingest_all pp canon sourceFiles)).
Proof.
  unfold ingest_all.
  assert (H0 : tally_inv (Results (mkContext 0 ∅))) by apply map_Forall_empty.
  revert H0. generalize (mkContext 0 ∅).
  induction sourceFiles as [|fp fs IH]; intros ctx Hc; simpl; [done|].
  apply IH. unfold ingestCoverageFile.
  destruct (pp fp); [|done]. by apply ingest_profiles_inv.
Qed.

Lemma collect_lookup pp canon rs now order sourceFiles k :
  range_order (Results (ingest_all pp canon sourceFiles)) order ->
  Results (collectCoverageContext pp canon rs now order sourceFiles) !! k =
  Results (ingest_all pp canon sourceFiles) !! k ≫= classified_entry rs k.
Proof.
  intros Hord. unfold collectCoverageContext; simpl.
  destruct (ingest_all pp canon sourceFiles) as [t m] eqn:He. simpl in *.
  by apply build_all_range.
Qed.

Lemma classify_partition_core (r : result) :
  is_tally r -> (0 <= lines r)%Z ->
  let r' := classify r in
  (length (Hits r') + length (Misses r') + length (Ignored r') = Z.to_nat (lines r'))%nat /\
  (forall ln, (0 <= ln < lines r')%Z <-> In ln (Hits r') \/ In ln (Misses r') \/ In ln (Ignored r')) /\
  (forall ln, In ln (Hits r') -> ~ In ln (Misses r')) /\
  (forall ln, In ln (Hits r') -> ~ In ln (Ignored r')) /\
  (forall ln, In ln (Misses r') -> ~ In ln (Ignored r')).
Proof.
  intros Ht Hn. destruct (classify_tally_fields r Ht) as (_ & Hl & _ & Hh & Hm & Hi).
  cbv zeta. rewrite Hl, Hh, Hm, Hi.
  pose proof (select_partition (counts r) (seqZ 0 (lines r))) as Hp.
  split; [|split; [|split; [|split]]].
  - apply Permutation_length in Hp. rewrite !length_app, length_seqZ in Hp. lia.
  - intros ln; split.
    + intros Hln. assert (Hin : In ln (seqZ 0 (lines r))).
      { apply list_elem_of_In, elem_of_seqZ. lia. }
      apply (Permutation_in _ (Permutation_sym Hp)) in Hin.
      rewrite !in_app_iff in Hin. exact Hin.
    + intros Hin. assert (Hin' : In ln (seqZ 0 (lines r))).
      { apply (Permutation_in _ Hp). rewrite !in_app_iff. exact Hin. }
      apply list_elem_of_In, elem_of_seqZ in Hin'. lia.
  - intros ln H1 H2. apply In_select in H1 as [_ H1]. apply In_select in H2 as [_ H2]. congruence.
  - intros ln H1 H2. apply In_select in H1 as [_ H1]. apply In_select in H2 as [_ H2]. congruence.
  - intros ln H1 H2. apply In_select in H1 as [_ H1]. apply In_select in H2 as [_ H2]. congruence.
Qed.

Lemma collect_lookup_Some pp canon rs now order sourceFiles f r :
  range_order (Results (ingest_all pp canon sourceFiles)) order ->
  Results (collectCoverageContext pp canon rs now order sourceFiles) !! f = Some r ->
  exists r0 bs, Results (ingest_all pp canon sourceFiles) !! f = Some r0 /\
    rs f = Some bs /\ filename r0 = f /\ is_tally r0 /\
    r = classify (set_lines (lineCounter bs) r0).
Proof.
  intros Hord Hr. rewrite collect_lookup in Hr by exact Hord.
  destruct (Results (ingest_all pp canon sourceFiles) !! f) as [r0|] eqn:H0; [|discriminate].
  simpl in Hr. unfold classified_entry in Hr.
  destruct (rs f) as [bs|] eqn:Hb; [|discriminate].
  injection Hr as <-.
  destruct (ingest_all_inv pp canon sourceFiles f r0 H0) as [Hf Ht].
  exists r0, bs. auto 10.
Qed.

(* ================================================================== *)
(** * Claims about ingestion and classification *)

(** C1: every result left in [ctx.Results] by [collectCoverageContext]
    (whatever the map iteration order) has [Hits], [Misses] and [Ignored]
    pairwise disjoint, together covering exactly the line indices
    [0 .. lines-1], with lengths summing to [lines]. *)
Theorem collect_results_partition_lines pp canon rs now order sourceFiles f r :
  range_order (Results (ingest_all pp canon sourceFiles)) order ->
  Results (collectCoverageContext pp canon rs now order sourceFiles) !! f = Some r ->
  (0 <= lines r)%Z /\
  (length (Hits r) + length (Misses r) + length (Ignored r) = Z.to_nat (lines r))%nat /\
  (forall ln, (0 <= ln < lines r)%Z <-> In ln (Hits r) \/ In ln (Misses r) \/ In ln (Ignored r)) /\
  (forall ln, In ln (Hits r) -> ~ In ln (Misses r)) /\
  (forall ln, In ln (Hits r) -> ~ In ln (Ignored r)) /\
  (forall ln, In ln (Misses r) -> ~ In ln (Ignored r)).
Proof.
  intros Hord Hr.
  destruct (collect_lookup_Some pp canon rs now order sourceFiles f r Hord Hr)
    as (r0 & bs & _ & _ & _ & Ht & ->).
  assert (Ht' : is_tally (set_lines (lineCounter bs) r0)) by exact Ht.
  assert (Hn : (0 <= lines (set_lines (lineCounter bs) r0))%Z)
    by apply lineCounter_nonneg.
  destruct (classify_tally_fields _ Ht') as (_ & Hl & _).
  split; [rewrite Hl; exact Hn|].
  exact (classify_partition_core _ Ht' Hn).
Qed.

(** C2 (corrected): classifying any tally, every line index [ln] in
    [0 .. lines-1] lands in [Ignored] exactly when [ln] is absent from
    [counts], in [Hits] exactly when its count is present and positive, and
    in [Misses] exactly when its count is present and at most 0 (the
    [default] arm also takes the negative counts that wrapped-around sums
    leave); each of the three sequences is strictly ascending. *)
Theorem classify_line_placement (r : result) :
  is_tally r ->
  (forall ln, (0 <= ln < lines r)%Z ->
     (In ln (Ignored (classify r)) <-> counts r !! ln = None) /\
     (In ln (Hits (classify r)) <-> exists c, counts r !! ln = Some c /\ (0 < c)%Z) /\
     (In ln (Misses (classify r)) <-> exists c, counts r !! ln = Some c /\ (c <= 0)%Z)) /\
  StronglySorted Z.lt (Hits (classify r)) /\
  StronglySorted Z.lt (Misses (classify r)) /\
  StronglySorted Z.lt (Ignored (classify r)).
Proof.
  intros Ht. destruct (classify_tally_fields r Ht) as (_ & _ & _ & Hh & Hm & Hi).
  rewrite Hh, Hm, Hi.
  split; [|split; [|split]]; try (apply filter_sorted, seqZ_sorted_any).
  intros ln Hln.
  assert (Hin : In ln (seqZ 0 (lines r))) by (apply list_elem_of_In, elem_of_seqZ; lia).
  rewrite !In_select. unfold line_kind.
  destruct (counts r !! ln) as [c|] eqn:Hc.
  - destruct (Z.ltb_spec 0 c) as [Hpos|Hle].
    + split; [|split].
      * split; [intros [_ H]; discriminate | discriminate].
      * split; [intros _; eauto | intros _; auto].
      * split; [intros [_ H]; discriminate | intros (c' & H & Hp); injection H; lia].
    + split; [|split].
      * split; [intros [_ H]; discriminate | discriminate].
      * split; [intros [_ H]; discriminate | intros (c' & H & Hp); injection H; lia].
      * split; [intros _; eauto | intros _; auto].
  - split; [|split].
    + split; [intros _; reflexivity | intros _; auto].
    + split; [intros [_ H]; discriminate | intros (c' & H & _); discriminate].
    + split; [intros [_ H]; discriminate | intros (c' & H & _); discriminate].
Qed.

(** C10: when the source file of a tally is read, the tally stays in the
    map and is classified, whatever counts it holds: a count stored at a
    line index at or beyond [lines] (the file's newline count) appears in
    none of [Hits], [Misses], [Ignored], and [counts] is left unchanged. *)
Theorem counts_beyond_lines_excluded rs ctx f r bs :
  is_tally r -> rs f = Some bs ->
  exists r', Results (buildFileCoverage rs ctx f r) !! f = Some r' /\
    lines r' = lineCounter bs /\ counts r' = counts r /\
    (forall ln, (lines r' <= ln)%Z ->
       ~ In ln (Hits r') /\ ~ In ln (Misses r') /\ ~ In ln (Ignored r')).
Proof.
  intros Ht Hb.
  rewrite buildFileCoverage_lookup, decide_True by reflexivity.
  unfold classified_entry. rewrite Hb.
  eexists; split; [reflexivity|].
  assert (Ht' : is_tally (set_lines (lineCounter bs) r)) by exact Ht.
  destruct (classify_tally_fields _ Ht') as (_ & Hl & Hc & Hh & Hm & Hi).
  split; [exact Hl|]. split; [exact Hc|].
  intros ln Hln. rewrite Hl in Hln. rewrite Hh, Hm, Hi.
  split; [|split]; intros Hin; apply In_select in Hin as [Hin _];
    apply list_elem_of_In, elem_of_seqZ in Hin; simpl in *; lia.
Qed.

(** C7: after [collectCoverageContext], a path whose source file cannot
    be opened or read is absent from [ctx.Results] (no partial result is
    kept), and every other path whose file is read is fully classified
    from its own tally, whatever the iteration order. *)
Theorem read_failure_drops_only_that_entry pp canon rs now order sourceFiles :
  range_order (Results (ingest_all pp canon sourceFiles)) order ->
  forall f,
    (rs f = None ->
       Results (collectCoverageContext pp canon rs now order sourceFiles) !! f = None) /\
    (forall r bs, Results (ingest_all pp canon sourceFiles) !! f = Some r -> rs f = Some bs ->
       Results (collectCoverageContext pp canon rs now order sourceFiles) !! f =
       Some (classify (set_lines (lineCounter bs) r))).
Proof.
  intros Hord f. rewrite collect_lookup by exact Hord. split.
  - intros Hf. destruct (Results (ingest_all pp canon sourceFiles) !! f); [|done].
    simpl. unfold classified_entry. by rewrite Hf.
  - intros r bs Hr Hb. rewrite Hr. simpl. unfold classified_entry. by rewrite Hb.
Qed.

(** C9: after any sequence of [ingestCoverageFile] calls from an empty
    context, each result's [filename] is the key it is stored under, and
    this still holds after the classification loop. *)
Theorem filename_matches_key pp canon rs now order sourceFiles :
  range_order (Results (ingest_all pp canon sourceFiles)) order ->
  map_Forall (fun k r => filename r = k) (Results (ingest_all pp canon sourceFiles)) /\
  map_Forall (fun k r => filename r = k)
    (Results (collectCoverageContext pp canon rs now order sourceFiles)).
Proof.
  intros Hord. split.
  - intros k r Hr. apply (ingest_all_inv pp canon sourceFiles k r Hr).
  - intros k r Hr.
    destruct (collect_lookup_Some pp canon rs now order sourceFiles k r Hord Hr)
      as (r0 & bs & _ & _ & Hf & Ht & ->).
    assert (Ht' : is_tally (set_lines (lineCounter bs) r0)) by exact Ht.
    destruct (classify_tally_fields _ Ht') as (Hf' & _).
    rewrite Hf'. exact Hf.
Qed.

(* ------------------------------------------------------------------ *)
(** ** Go [int] addition *)

Lemma int_wrap_add_l (a b : Z) : int_wrap (int_wrap a + b) = int_wrap (a + b).
Proof.
  unfold int_wrap.
  replace ((a + 2 ^ 63) mod 2 ^ 64 - 2 ^ 63 + b + 2 ^ 63)%Z
    with ((a + 2 ^ 63) mod 2 ^ 64 + b)%Z by lia.
  rewrite Z.add_mod_idemp_l by lia.
  f_equal. f_equal. lia.
Qed.

Lemma int_wrap_double (a : Z) : int_wrap (2 * int_wrap a) = int_wrap (2 * a).
Proof.
  replace (2 * int_wrap a)%Z with (int_wrap a + int_wrap a)%Z by lia.
  rewrite int_wrap_add_l, Z.add_comm, int_wrap_add_l.
  f_equal. lia.
Qed.

(* ------------------------------------------------------------------ *)
(** ** Ingestion is a fold of [tally_op]s *)

Lemma set_counts_id (r : result) : set_counts (counts r) r = r.
Proof. by destruct r. Qed.

Lemma set_counts_twice (a b : gmap Z Z) (r : result) :
  set_counts a (set_counts b r) = set_counts a r.
Proof. by destruct r. Qed.

Lemma fold_add_ops rn c (lns : list Z) (r : result) (m : gmap string result) :
  fold_left apply_op (map (fun ln => Add rn ln c) lns) (<[rn := r]> m) =
  <[rn := set_counts (fold_left (add_count c) lns (counts r)) r]> m.
Proof.
  revert r; induction lns as [|ln lns IH]; intros r; simpl.
  - by rewrite set_counts_id.
  - rewrite lookup_insert_eq. simpl. rewrite insert_insert_eq, IH.
    simpl. by rewrite set_counts_twice.
Qed.

Lemma fold_block_ops rn (B : list ProfileBlock) (r : result) (m : gmap string result) :
  fold_left apply_op (flat_map (block_ops rn) B) (<[rn := r]> m) =
  <[rn := set_counts (fold_left ingest_block B (counts r)) r]> m.
Proof.
  revert r; induction B as [|pb B IH]; intros r; simpl.
  - by rewrite set_counts_id.
  - rewrite fold_left_app.
    change (block_ops rn pb) with
      (map (fun ln => Add rn ln (Count pb)) (seqZ (StartLine pb) (EndLine pb - StartLine pb + 1))).
    rewrite fold_add_ops, IH.
    simpl. by rewrite set_counts_twice.
Qed.

Lemma ingest_profiles_ops canon (ps : list Profile) (m : gmap string result) :
  ingest_profiles canon ps m = fold_left apply_op (profile_ops canon ps) m.
Proof.
  revert m; induction ps as [|p ps IH]; intros m; simpl; [done|].
  destruct (canon (FileName p)) as [rn|]; simpl; [|done].
  rewrite fold_left_app, fold_block_ops, IH. reflexivity.
Qed.

Lemma ingest_files_ops pp canon (files : list string) (ctx : context) :
  Results (fold_left (ingestCoverageFile pp canon) files ctx) =
  fold_left apply_op (flat_map (file_ops pp canon) files) (Results ctx).
Proof.
  revert ctx; induction files as [|fp files IH]; intros ctx; simpl; [done|].
  rewrite IH, fold_left_app. f_equal.
  unfold ingestCoverageFile, file_ops. destruct (pp fp); simpl; [|done].
  apply ingest_profiles_ops.
Qed.

Lemma ingest_all_ops pp canon (files : list string) :
  Results (ingest_all pp canon files) = fold_left apply_op (flat_map (file_ops pp canon) files) ∅.
Proof. apply ingest_files_ops. Qed.

(* ------------------------------------------------------------------ *)
(** ** What a fold of [tally_op]s leaves under one key and one line *)

Lemma line_fold_lookup (L : list (Z * Z)) (cs : gmap Z Z) (ln : Z) :
  line_fold L cs !! ln =
  match line_adds L ln with
  | [] => cs !! ln
  | A => Some (int_wrap (default 0%Z (cs !! ln) + sum_counts A))
  end.
Proof.
  revert cs; induction L as [|[l c] L IH]; intros cs; simpl; [done|].
  unfold line_fold in IH. rewrite IH. unfold line_adds; simpl.
  case_bool_decide as Hl; simpl.
  - subst l. unfold add_count. rewrite lookup_insert_eq. simpl.
    fold (line_adds L ln).
    destruct (line_adds L ln) as [|a A]; simpl.
    + f_equal. f_equal. lia.
    + rewrite int_wrap_add_l. f_equal. f_equal. lia.
  - fold (line_adds L ln). unfold add_count. rewrite lookup_insert_ne by congruence.
    reflexivity.
Qed.

Lemma line_ops_untouched (O : list tally_op) k :
  touched O k = false -> line_ops O k = [].
Proof.
  induction O as [|o O IH]; simpl; [done|].
  intros H. apply orb_false_iff in H as [Ho HO].
  destruct o as [rn|rn ln c]; simpl in *; [by apply IH|].
  rewrite bool_decide_eq_false in Ho. rewrite bool_decide_false by done.
  by apply IH.
Qed.

Lemma fold_ops_lookup (O : list tally_op) (m : gmap string result) k :
  fold_left apply_op O m !! k =
  if touched O k
  then Some (set_counts (line_fold (line_ops O k) (counts (default (new_result k) (m !! k))))
                        (default (new_result k) (m !! k)))
  else m !! k.
Proof.
  revert m; induction O as [|o O IH]; intros m; simpl; [done|].
  rewrite IH. clear IH.
  destruct (decide (op_key o = k)) as [Hk|Hk].
  - rewrite (bool_decide_true _ Hk). simpl.
    destruct o as [rn|rn ln c]; simpl in Hk; subst rn; simpl.
    + rewrite lookup_insert_eq. simpl.
      destruct (touched O k) eqn:Ht; [done|].
      rewrite line_ops_untouched by done. simpl. by rewrite set_counts_id.
    + rewrite lookup_insert_eq, bool_decide_true by done. simpl.
      destruct (touched O k) eqn:Ht.
      * by rewrite set_counts_twice.
      * rewrite line_ops_untouched by done. reflexivity.
  - rewrite (bool_decide_false _ Hk). simpl.
    destruct o as [rn|rn ln c]; simpl in Hk; simpl.
    + by rewrite lookup_insert_ne.
    + rewrite lookup_insert_ne by done. rewrite bool_decide_false by done. reflexivity.
Qed.

(** C3: ingesting the same profile files twice into an empty results map
    gives, for every canonical path and every line, twice the count that
    ingesting them once gives (doubling in Go's 64-bit [int], i.e. exactly
    twice while the count stays below 2^62): counts are summed, never
    maximised or overwritten.  The set of paths and of counted lines is the
    same. *)
Theorem ingest_twice_doubles pp canon (files : list string) :
  Results (ingest_all pp canon (files ++ files)) =
  double_counts <$> Results (ingest_all pp canon files).
Proof.
  rewrite !ingest_all_ops, flat_map_app, fold_left_app.
  set (O := flat_map (file_ops pp canon) files).
  apply map_eq; intros k. rewrite lookup_fmap, !fold_ops_lookup.
  destruct (touched O k); simpl; [|done].
  rewrite lookup_empty; simpl. unfold double_counts. simpl.
  rewrite !set_counts_twice. do 2 f_equal.
  apply map_eq; intros ln. rewrite lookup_fmap, !line_fold_lookup.
  destruct (line_adds (line_ops O k) ln) as [|a A]; simpl; [done|].
  rewrite lookup_empty; simpl.
  rewrite int_wrap_add_l, int_wrap_double. f_equal. f_equal. lia.
Qed.

(* ------------------------------------------------------------------ *)
(** ** Reordering the steps does not change the fold *)

Lemma touched_perm (O1 O2 : list tally_op) k :
  O1 ≡ₚ O2 -> touched O1 k = touched O2 k.
Proof.
  induction 1 as [|o O1 O2 _ IH|o1 o2 O|O1 O2 O3 _ IH1 _ IH2]; simpl.
  - done.
  - by rewrite IH.
  - by rewrite !orb_assoc, (orb_comm (bool_decide _)).
  - by rewrite IH1, IH2.
Qed.

Lemma line_adds_perm (L1 L2 : list (Z * Z)) ln :
  L1 ≡ₚ L2 -> line_adds L1 ln ≡ₚ line_adds L2 ln.
Proof.
  unfold line_adds.
  induction 1 as [|x L1 L2 _ IH|x y L|L1 L2 L3 _ IH1 _ IH2]; simpl.
  - done.
  - destruct (bool_decide _); simpl; [constructor|]; exact IH.
  - destruct (bool_decide (y.1 = ln)), (bool_decide (x.1 = ln)); simpl;
      try constructor; reflexivity.
  - by rewrite IH1, IH2.
Qed.

Lemma sum_counts_perm (A1 A2 : list Z) : A1 ≡ₚ A2 -> sum_counts A1 = sum_counts A2.
Proof.
  unfold sum_counts.
  induction 1 as [|x A1 A2 _ IH|x y A|A1 A2 A3 _ IH1 _ IH2]; simpl; lia.
Qed.

Lemma line_fold_perm (L1 L2 : list (Z * Z)) (cs : gmap Z Z) :
  L1 ≡ₚ L2 -> line_fold L1 cs = line_fold L2 cs.
Proof.
  intros HL. apply map_eq; intros ln. rewrite !line_fold_lookup.
  pose proof (line_adds_perm L1 L2 ln HL) as HA.
  destruct (line_adds L1 ln) as [|a1 A1], (line_adds L2 ln) as [|a2 A2].
  - done.
  - apply Permutation_nil in HA. discriminate.
  - symmetry in HA. apply Permutation_nil in HA. discriminate.
  - by rewrite (sum_counts_perm _ _ HA).
Qed.

Lemma fold_ops_perm (O1 O2 : list tally_op) (m : gmap string result) :
  O1 ≡ₚ O2 -> fold_left apply_op O1 m = fold_left apply_op O2 m.
Proof.
  intros HO. apply map_eq; intros k. rewrite !fold_ops_lookup.
  rewrite (touched_perm O1 O2 k HO).
  destruct (touched O2 k); [|done].
  rewrite (line_fold_perm (line_ops O1 k) (line_ops O2 k)); [done|].
  unfold line_ops. by rewrite HO.
Qed.

Lemma profile_ops_records canon (ps : list Profile) :
  (forall p, In p ps -> canon (FileName p) <> None) ->
  profile_ops canon ps = flat_map (record_ops canon) ps.
Proof.
  induction ps as [|p ps IH]; intros Hc; simpl; [done|].
  unfold record_ops at 1.
  destruct (canon (FileName p)) as [rn|] eqn:Hp.
  - simpl. rewrite IH; [done|]. intros q Hq. apply Hc. right. exact Hq.
  - exfalso. apply (Hc p); [left; reflexivity|exact Hp].
Qed.

Lemma file_ops_records pp canon (files : list string) :
  (forall p, In p (parsed_profiles pp files) -> canon (FileName p) <> None) ->
  flat_map (file_ops pp canon) files = flat_map (record_ops canon) (parsed_profiles pp files).
Proof.
  induction files as [|fp files IH]; intros Hc; simpl; [done|].
  unfold parsed_profiles in *; simpl in *.
  rewrite flat_map_app, <- IH.
  - f_equal. unfold file_ops. destruct (pp fp) as [ps|]; simpl; [|done].
    apply profile_ops_records. intros p Hp. apply Hc, in_or_app. left. exact Hp.
  - intros p Hp. apply Hc, in_or_app. right. exact Hp.
Qed.

(** C8: when every [Profile] record canonicalises, ingesting the same
    collection of profile records in any order (reordering the profile
    files, or the records among them) leaves the same map from canonical
    path to result (same counts per line), and hence the same classified
    results, whatever the map iteration order of the classification loop. *)
Theorem ingest_order_irrelevant pp canon rs now (files1 files2 : list string) order1 order2 :
  (forall p, In p (parsed_profiles pp files1) -> canon (FileName p) <> None) ->
  parsed_profiles pp files1 ≡ₚ parsed_profiles pp files2 ->
  range_order (Results (ingest_all pp canon files1)) order1 ->
  range_order (Results (ingest_all pp canon files2)) order2 ->
  Results (ingest_all pp canon files1) = Results (ingest_all pp canon files2) /\
  Results (collectCoverageContext pp canon rs now order1 files1) =
  Results (collectCoverageContext pp canon rs now order2 files2).
Proof.
  intros Hc Hperm Hord1 Hord2.
  assert (Hc2 : forall p, In p (parsed_profiles pp files2) -> canon (FileName p) <> None).
  { intros p Hp. apply Hc. apply (Permutation_in _ (Permutation_sym Hperm)). exact Hp. }
  assert (Heq : Results (ingest_all pp canon files1) = Results (ingest_all pp canon files2)).
  { rewrite !ingest_all_ops, file_ops_records, file_ops_records by assumption.
    apply fold_ops_perm. by rewrite Hperm. }
  split; [exact Heq|].
  apply map_eq; intros k.
  rewrite (collect_lookup pp canon rs now order1 files1 k Hord1).
  rewrite (collect_lookup pp canon rs now order2 files2 k Hord2).
  by rewrite Heq.
Qed.

(* ------------------------------------------------------------------ *)
(** ** Comparisons of binary64 values *)

Lemma SFcompare_swap (x y : spec_float) :
  SFcompare y x = option_map CompOpp (SFcompare x y).
Proof.
  destruct x as [s1|s1| |s1 m1 e1], y as [s2|s2| |s2 m2 e2];
    try destruct s1; try destruct s2; simpl; try reflexivity.
  - rewrite (Z.compare_antisym e1 e2).
    destruct (e1 ?= e2)%Z; simpl; try reflexivity.
    change (Pos.compare_cont Eq m2 m1) with (Pos.compare m2 m1).
    change (Pos.compare_cont Eq m1 m2) with (Pos.compare m1 m2).
    rewrite Pos.compare_antisym. reflexivity.
  - rewrite (Z.compare_antisym e1 e2).
    destruct (e1 ?= e2)%Z; simpl; try reflexivity.
    change (Pos.compare_cont Eq m2 m1) with (Pos.compare m2 m1).
    change (Pos.compare_cont Eq m1 m2) with (Pos.compare m1 m2).
    rewrite Pos.compare_antisym. reflexivity.
Qed.


Lemma float_ltb_asym (x y : float) :
  (x <? y)%float = true -> (y <? x)%float = false.
Proof.
  rewrite !ltb_spec. unfold SFltb. rewrite (SFcompare_swap (Prim2SF x) (Prim2SF y)).
  destruct (SFcompare (Prim2SF x) (Prim2SF y)) as [[]|]; simpl; congruence.
Qed.



(* ------------------------------------------------------------------ *)
(** ** Go's insertion sort *)

Section InsertionSort.
Context {A : Type} (less : A -> A -> bool).
Hypothesis less_asym : forall a b, less a b = true -> less b a = false.






End InsertionSort.







Lemma insert_back_split {A} (less : A -> A -> bool) (x : A) (acc : list A) :
  exists s t, acc = s ++ t /\ insert_back less x acc = s ++ x :: t /\
    Forall (fun y => less x y = true) s.
Proof.
  induction acc as [|y ys IH]; simpl.
  - exists [], []. auto.
  - destruct (less x y) eqn:Hxy.
    + destruct IH as (s & t & -> & -> & Hs). exists (y :: s), t. auto.
    + exists [], (y :: ys). auto.
Qed.

Lemma filter_all_false {A} (P : A -> bool) (l : list A) :
  (forall y, In y l -> P y = false) -> List.filter P l = [].
Proof.
  induction l as [|y l IH]; intros H; simpl; [done|].
  rewrite (H y (or_introl eq_refl)). apply IH. intros z Hz. apply H. right. exact Hz.
Qed.

Lemma fold_insert_filter {A} (less : A -> A -> bool) (P : A -> bool) :
  (forall a b, P a = true -> P b = true -> less a b = false) ->
  forall (l acc : list A),
  List.filter P (rev (fold_left (fun acc x => insert_back less x acc) l acc)) =
  List.filter P (rev acc) ++ List.filter P l.
Proof.
  intros Hinc l. induction l as [|x l IH]; intros acc.
  - simpl. by rewrite app_nil_r.
  - cbn [fold_left]. rewrite IH. change (x :: l) with ([x] ++ l). rewrite List.filter_app, app_assoc. f_equal.
    destruct (insert_back_split less x acc) as (s & t & -> & -> & Hs).
    rewrite !rev_app_distr. simpl rev. rewrite <- app_assoc.
    rewrite !List.filter_app. simpl List.filter.
    destruct (P x) eqn:Hx.
    + assert (Hfs : List.filter P (rev s) = []).
      { apply filter_all_false. intros y Hy. apply in_rev in Hy.
        rewrite List.Forall_forall in Hs. specialize (Hs y Hy).
        destruct (P y) eqn:Hy'; [|reflexivity].
        rewrite (Hinc x y Hx Hy') in Hs. discriminate. }
      rewrite Hfs. rewrite !app_nil_r. reflexivity.
    + rewrite !app_nil_r. reflexivity.
Qed.

Lemma insertionSort_filter {A} (less : A -> A -> bool) (P : A -> bool) (l : list A) :
  (forall a b, P a = true -> P b = true -> less a b = false) ->
  List.filter P (insertionSort less l) = List.filter P l.
Proof. intros Hinc. unfold insertionSort. by rewrite (fold_insert_filter less P Hinc l []). Qed.

Lemma float_ltb_irrefl (x : float) : (x <? x)%float = false.
Proof.
  destruct (x <? x)%float eqn:H; [|reflexivity].
  pose proof (float_ltb_asym x x H) as H'. congruence.
Qed.

(* ------------------------------------------------------------------ *)
(** ** Claims about the hitlist *)



Lemma pair_up_length (rs ps : list result) :
  length rs = length ps ->
  exists rps, pair_up rs ps = Some rps /\ length rps = length rs.
Proof.
  revert ps; induction rs as [|r rs IH]; intros [|p ps] Hl; simpl in *; try discriminate.
  - by exists [].
  - destruct (IH ps) as [rps [-> Hlen]]; [lia|].
    exists ((r, p) :: rps). simpl. split; [reflexivity|lia].
Qed.

Lemma emit_rows_panic (rps : list (result * result)) (is : list Z) (i : Z) :
  In i is -> row_at rps i = None -> emit_rows rps is = None.
Proof.
  induction is as [|j is IH]; simpl; [contradiction|].
  intros [->|Hin] Hi.
  - by rewrite Hi.
  - destruct (row_at rps j); [|reflexivity]. by rewrite IH.
Qed.

(** C6 (code bug): for any visiting orders of the results, and whatever
    permutation [sort.Sort] picks, a [limit] larger than the number of
    results does not default to that number: the loop indexes [rps] past
    its end and the program panics. *)
Theorem hitlist_limit_past_length_panics sort_Sort (m : gmap string result) (vs1 vs2 : list result) (limit : Z) :
  sort_Sort (Reverse lessByLines) vs1 ≡ₚ vs1 ->
  sort_Sort (Reverse lessByPercentage) vs2 ≡ₚ vs2 ->
  values_order m vs1 -> values_order m vs2 -> (Z.of_nat (size m) < limit)%Z ->
  printHitlist sort_Sort vs1 vs2 limit = None.
Proof.
  unfold values_order, printHitlist. intros Hs1 Hs2 H1 H2 Hlim.
  assert (Hn1 : length (sort_Sort (Reverse lessByLines) vs1) = size m).
  { by rewrite Hs1, H1, length_fmap, length_map_to_list. }
  assert (Hn2 : length (sort_Sort (Reverse lessByPercentage) vs2) = size m).
  { by rewrite Hs2, H2, length_fmap, length_map_to_list. }
  destruct (pair_up_length (sort_Sort (Reverse lessByLines) vs1)
              (sort_Sort (Reverse lessByPercentage) vs2)) as [rps [-> Hlen]]; [lia|].
  rewrite Hn1 in Hlen.
  replace (if (limit =? 0)%Z then Z.of_nat (length rps) else limit) with limit
    by (destruct (Z.eqb_spec limit 0); lia).
  apply (emit_rows_panic _ _ (Z.of_nat (size m))).
  - apply list_elem_of_In, elem_of_seqZ. lia.
  - unfold row_at. rewrite Nat2Z.id.
    replace (rps !! size m) with (@None (result * result)); [reflexivity|].
    symmetry. apply lookup_ge_None_2. lia.
Qed.

(** C6, at a concrete input: one result, [limit = 2], and the insertion
    sort that [sort.Sort] runs on a slice this short. *)
Lemma hitlist_limit_past_length_panics_witness :
  let rA := mkResult "a.go"%string 2 ∅ [0%Z] [1%Z] [] in
  values_order {[ "a.go"%string := rA ]} [rA] /\ (Z.of_nat (size ({[ "a.go"%string := rA ]} : gmap string result)) < 2)%Z /\
  printHitlist insertionSort [rA] [rA] 2 = None.
Proof.
  cbv zeta. split; [vm_compute; reflexivity|]. split; [vm_compute; reflexivity|].
  apply (hitlist_limit_past_length_panics insertionSort {[ "a.go"%string := mkResult "a.go" 2 ∅ [0%Z] [1%Z] [] ]});
    vm_compute; reflexivity.
Defined.


(* ------------------------------------------------------------------ *)
(** ** The claims at the sample run *)

Lemma collect_results_partition_lines_witness :
  range_order (Results (ingest_all sample_ParseProfiles sample_canonical sample_files))
    (sample_order sample_files) /\
  Results (collectCoverageContext sample_ParseProfiles sample_canonical sample_read_source 0
             (sample_order sample_files) sample_files) !! "main.go"%string = Some sample_result /\
  ((0 <= lines sample_result)%Z /\
   (length (Hits sample_result) + length (Misses sample_result) + length (Ignored sample_result)
      = Z.to_nat (lines sample_result))%nat /\
   (forall ln, (0 <= ln < lines sample_result)%Z <->
      In ln (Hits sample_result) \/ In ln (Misses sample_result) \/ In ln (Ignored sample_result)) /\
   (forall ln, In ln (Hits sample_result) -> ~ In ln (Misses sample_result)) /\
   (forall ln, In ln (Hits sample_result) -> ~ In ln (Ignored sample_result)) /\
   (forall ln, In ln (Misses sample_result) -> ~ In ln (Ignored sample_result))).
Proof.
  split; [exact (Permutation_refl _)|]. split; [vm_compute; reflexivity|].
  apply (collect_results_partition_lines sample_ParseProfiles sample_canonical sample_read_source 0
           (sample_order sample_files) sample_files "main.go"%string sample_result);
    [exact (Permutation_refl _)|vm_compute; reflexivity].
Defined.

Lemma classify_line_placement_witness :
  is_tally sample_tally /\
  ((forall ln, (0 <= ln < lines sample_tally)%Z ->
     (In ln (Ignored (classify sample_tally)) <-> counts sample_tally !! ln = None) /\
     (In ln (Hits (classify sample_tally)) <->
        exists c, counts sample_tally !! ln = Some c /\ (0 < c)%Z) /\
     (In ln (Misses (classify sample_tally)) <->
        exists c, counts sample_tally !! ln = Some c /\ (c <= 0)%Z)) /\
   StronglySorted Z.lt (Hits (classify sample_tally)) /\
   StronglySorted Z.lt (Misses (classify sample_tally)) /\
   StronglySorted Z.lt (Ignored (classify sample_tally))).
Proof.
  split; [repeat split|].
  apply (classify_line_placement sample_tally).
  repeat split.
Defined.

(** C2, counterexample: a profile file [hot.out] whose two records each
    give line 0 of [hot.go] the count 2^62; [hot.go] has one line.  The
    second [r.counts[ln] += pb.Count] wraps the count of line 0 to -2^63,
    and the collected result lists line 0 under [Misses] although its count
    is present and not 0. *)
Lemma classify_line_placement_counterexample :
  let pp := fun fp : string =>
    if String.eqb fp "hot.out" then
      Some [mkProfile "hot.go" [mkBlock 0 0 (2 ^ 62)]; mkProfile "hot.go" [mkBlock 0 0 (2 ^ 62)]]
    else None in
  let canon := fun name : string => Some name in
  let rs := fun f : string => if String.eqb f "hot.go" then Some [Byte.x0a] else None in
  let order := map_to_list (Results (ingest_all pp canon ["hot.out"%string])) in
  range_order (Results (ingest_all pp canon ["hot.out"%string])) order /\
  Results (collectCoverageContext pp canon rs 0 order ["hot.out"%string]) !! "hot.go"%string =
    Some (mkResult "hot.go" 1 {[ 0%Z := (- 2 ^ 63)%Z ]} [] [0%Z] []) /\
  In 0%Z (Misses (mkResult "hot.go" 1 {[ 0%Z := (- 2 ^ 63)%Z ]} [] [0%Z] [])) /\
  counts (mkResult "hot.go" 1 {[ 0%Z := (- 2 ^ 63)%Z ]} [] [0%Z] []) !! 0%Z <> Some 0%Z.
Proof.
  cbv zeta. split; [exact (Permutation_refl _)|].
  split; [vm_compute; reflexivity|].
  split; [left; reflexivity|].
  vm_compute. discriminate.
Qed.

Lemma counts_beyond_lines_excluded_witness :
  is_tally sample_tally /\
  sample_read_source "main.go"%string = Some [Byte.x61; Byte.x0a; Byte.x0a; Byte.x0a; Byte.x0a] /\
  (exists r', Results (buildFileCoverage sample_read_source (mkContext 0 ∅) "main.go"%string sample_tally)
                !! "main.go"%string = Some r' /\
    lines r' = lineCounter [Byte.x61; Byte.x0a; Byte.x0a; Byte.x0a; Byte.x0a] /\
    counts r' = counts sample_tally /\
    (forall ln, (lines r' <= ln)%Z ->
       ~ In ln (Hits r') /\ ~ In ln (Misses r') /\ ~ In ln (Ignored r'))).
Proof.
  split; [repeat split|]. split; [reflexivity|].
  apply (counts_beyond_lines_excluded sample_read_source (mkContext 0 ∅) "main.go"%string sample_tally
           [Byte.x61; Byte.x0a; Byte.x0a; Byte.x0a; Byte.x0a]); [repeat split|reflexivity].
Defined.

Lemma read_failure_drops_only_that_entry_witness :
  range_order (Results (ingest_all sample_ParseProfiles sample_canonical sample_files))
    (sample_order sample_files) /\
  (forall f,
    (sample_read_source f = None ->
       Results (collectCoverageContext sample_ParseProfiles sample_canonical sample_read_source 0
                  (sample_order sample_files) sample_files) !! f = None) /\
    (forall r bs, Results (ingest_all sample_ParseProfiles sample_canonical sample_files) !! f = Some r ->
       sample_read_source f = Some bs ->
       Results (collectCoverageContext sample_ParseProfiles sample_canonical sample_read_source 0
                  (sample_order sample_files) sample_files) !! f =
       Some (classify (set_lines (lineCounter bs) r)))).
Proof.
  split; [exact (Permutation_refl _)|].
  apply (read_failure_drops_only_that_entry sample_ParseProfiles sample_canonical sample_read_source 0
           (sample_order sample_files) sample_files).
  exact (Permutation_refl _).
Defined.

Lemma filename_matches_key_witness :
  range_order (Results (ingest_all sample_ParseProfiles sample_canonical sample_files))
    (sample_order sample_files) /\
  map_Forall (fun k r => filename r = k)
    (Results (ingest_all sample_ParseProfiles sample_canonical sample_files)) /\
  map_Forall (fun k r => filename r = k)
    (Results (collectCoverageContext sample_ParseProfiles sample_canonical sample_read_source 0
                (sample_order sample_files) sample_files)).
Proof.
  split; [exact (Permutation_refl _)|].
  apply (filename_matches_key sample_ParseProfiles sample_canonical sample_read_source 0
           (sample_order sample_files) sample_files).
  exact (Permutation_refl _).
Defined.

Lemma ingest_order_irrelevant_witness :
  (forall p, In p (parsed_profiles sample_ParseProfiles ["c.out"%string; "d.out"%string]) ->
     sample_canonical (FileName p) <> None) /\
  parsed_profiles sample_ParseProfiles ["c.out"%string; "d.out"%string]
    ≡ₚ parsed_profiles sample_ParseProfiles ["d.out"%string; "c.out"%string] /\
  range_order (Results (ingest_all sample_ParseProfiles sample_canonical ["c.out"%string; "d.out"%string]))
    (sample_order ["c.out"%string; "d.out"%string]) /\
  range_order (Results (ingest_all sample_ParseProfiles sample_canonical ["d.out"%string; "c.out"%string]))
    (sample_order ["d.out"%string; "c.out"%string]) /\
  Results (ingest_all sample_ParseProfiles sample_canonical ["c.out"%string; "d.out"%string]) =
  Results (ingest_all sample_ParseProfiles sample_canonical ["d.out"%string; "c.out"%string]) /\
  Results (collectCoverageContext sample_ParseProfiles sample_canonical sample_read_source 0
             (sample_order ["c.out"%string; "d.out"%string]) ["c.out"%string; "d.out"%string]) =
  Results (collectCoverageContext sample_ParseProfiles sample_canonical sample_read_source 0
             (sample_order ["d.out"%string; "c.out"%string]) ["d.out"%string; "c.out"%string]).
Proof.
  assert (Hc : forall p, In p (parsed_profiles sample_ParseProfiles ["c.out"%string; "d.out"%string]) ->
     sample_canonical (FileName p) <> None) by (intros p _; discriminate).
  assert (Hp : parsed_profiles sample_ParseProfiles ["c.out"%string; "d.out"%string]
    ≡ₚ parsed_profiles sample_ParseProfiles ["d.out"%string; "c.out"%string])
    by (vm_compute; solve_Permutation).
  split; [exact Hc|]. split; [exact Hp|]. split; [exact (Permutation_refl _)|]. split; [exact (Permutation_refl _)|].
  apply (ingest_order_irrelevant sample_ParseProfiles sample_canonical sample_read_source 0
           ["c.out"%string; "d.out"%string] ["d.out"%string; "c.out"%string]
           (sample_order ["c.out"%string; "d.out"%string]) (sample_order ["d.out"%string; "c.out"%string]));
    [exact Hc|exact Hp|exact (Permutation_refl _)|exact (Permutation_refl _)].
Defined.

(* ------------------------------------------------------------------ *)
(** ** The fraction of missed lines *)

Lemma digits2_pos_size (p : positive) : digits2_pos p = Pos.size p.
Proof. induction p as [p IH|p IH|]; simpl; try rewrite IH; reflexivity. Qed.

Lemma size_bounds (p : positive) :
  (2 ^ (Zpos (Pos.size p) - 1) <= Zpos p < 2 ^ Zpos (Pos.size p))%Z.
Proof.
  pose proof (Pos.size_gt p) as Hgt. pose proof (Pos.size_le p) as Hle.
  apply Pos2Z.pos_lt_pos in Hgt. apply Pos2Z.pos_le_pos in Hle.
  rewrite Pos2Z.inj_pow in Hgt, Hle. rewrite (Pos2Z.inj_xO p) in Hle.
  change (Z.pos 2) with 2%Z in Hle.
  split; [|exact Hgt].
  assert (H2 : (2 ^ Zpos (Pos.size p) = 2 * 2 ^ (Zpos (Pos.size p) - 1))%Z).
  { rewrite <- Z.pow_succ_r by lia. f_equal. lia. }
  lia.
Qed.

Lemma size_unique (p : positive) (k : Z) :
  (0 < k)%Z -> (2 ^ (k - 1) <= Zpos p < 2 ^ k)%Z -> Zpos (Pos.size p) = k.
Proof.
  intros Hk [Hlo Hhi]. pose proof (size_bounds p) as [Hslo Hshi].
  assert (H1 : (Zpos (Pos.size p) - 1 < k)%Z).
  { apply (Z.pow_lt_mono_r_iff 2); lia. }
  assert (H2 : (k - 1 < Zpos (Pos.size p))%Z).
  { apply (Z.pow_lt_mono_r_iff 2); lia. }
  lia.
Qed.

Lemma shr_1_nonneg (m : Z) (r s : bool) :
  (0 <= m)%Z ->
  shr_1 (Build_shr_record m r s) = Build_shr_record (m / 2) (Z.odd m) (r || s).
Proof.
  intros Hm. rewrite <- Z.div2_div.
  destruct m as [|p|p]; [reflexivity| |lia].
  destruct p; reflexivity.
Qed.

Lemma iter_pos_nat {A} (f : A -> A) (p : positive) (x : A) :
  SpecFloat.iter_pos f p x = Nat.iter (Pos.to_nat p) f x.
Proof.
  revert x; induction p as [p IH|p IH|]; intros x.
  - change (SpecFloat.iter_pos f p~1 x) with (SpecFloat.iter_pos f p (SpecFloat.iter_pos f p (f x))).
    rewrite !IH, Pos2Nat.inj_xI, Nat.iter_succ_r, <- Nat.iter_add. f_equal. lia.
  - change (SpecFloat.iter_pos f p~0 x) with (SpecFloat.iter_pos f p (SpecFloat.iter_pos f p x)).
    rewrite !IH, Pos2Nat.inj_xO, <- Nat.iter_add. f_equal. lia.
  - reflexivity.
Qed.

Lemma iter_shr_1_m (k : nat) (m : Z) (r s : bool) :
  (0 <= m)%Z ->
  exists r' s', Nat.iter k shr_1 (Build_shr_record m r s) =
                Build_shr_record (m / 2 ^ Z.of_nat k) r' s'.
Proof.
  intros Hm. induction k as [|k IH].
  - exists r, s. simpl. by rewrite Z.div_1_r.
  - destruct IH as (r' & s' & IH). rewrite Nat.iter_succ, IH.
    rewrite shr_1_nonneg by (apply Z.div_pos; lia).
    eexists _, _. f_equal.
    rewrite Z.div_div by lia. f_equal.
    rewrite Nat2Z.inj_succ, Z.pow_succ_r by lia. lia.
Qed.

Lemma iter_shr_1_exact (k : nat) (t : Z) :
  (0 <= t)%Z ->
  Nat.iter k shr_1 (Build_shr_record (t * 2 ^ Z.of_nat k) false false) =
  Build_shr_record t false false.
Proof.
  intros Ht. induction k as [|k IH].
  - simpl. f_equal. lia.
  - rewrite Nat.iter_succ_r, shr_1_nonneg.
    2: { apply Z.mul_nonneg_nonneg; [lia|]. apply Z.pow_nonneg; lia. }
    rewrite Nat2Z.inj_succ, Z.pow_succ_r by lia.
    replace (t * (2 * 2 ^ Z.of_nat k))%Z with (t * 2 ^ Z.of_nat k * 2)%Z by ring.
    rewrite Z.div_mul by lia.
    rewrite Z.odd_mul. simpl. rewrite andb_false_r. exact IH.
Qed.

(** [x] is [+0] or a positive finite value at most 1. *)
Lemma fexp_binary64 (z : Z) : fexp prec emax z = Z.max (z - 53) (-1074).
Proof. reflexivity. Qed.

Lemma Zdigits2_le (q N : Z) :
  (0 <= N)%Z -> (0 <= q <= 2 ^ N)%Z -> (Zdigits2 q <= N + 1)%Z.
Proof.
  intros HN Hq. destruct q as [|p|p]; simpl; [lia| |lia].
  rewrite digits2_pos_size. pose proof (size_bounds p) as [Hlo _].
  assert (Zpos (Pos.size p) - 1 <= N)%Z; [|lia].
  apply (Z.pow_le_mono_r_iff 2); lia.
Qed.

Lemma shr_record_of_loc_m (m : Z) (l : location) : shr_m (shr_record_of_loc m l) = m.
Proof. by destruct l as [|[]]. Qed.

Lemma loc_of_shr_record_of_loc (m : Z) (l : location) :
  loc_of_shr_record (shr_record_of_loc m l) = l.
Proof. by destruct l as [|[]]. Qed.

Lemma shr_record_of_loc_eta (m : Z) (l : location) :
  exists r s, shr_record_of_loc m l = Build_shr_record m r s.
Proof. destruct l as [|[]]; eauto. Qed.

Lemma round_nearest_even_le (m : Z) (l : location) :
  (m <= round_nearest_even m l <= m + 1)%Z.
Proof. destruct l as [|[]]; simpl; try lia. destruct (Z.even m); lia. Qed.

Lemma round_stage1 (q N : Z) (l : location) (mrs : shr_record) (e : Z) :
  (0 <= q)%Z -> (0 <= N)%Z -> ((q < 2 ^ N)%Z \/ ((q = 2 ^ N)%Z /\ l = loc_Exact)) ->
  shr_fexp prec emax q (- N)%Z l = (mrs, e) ->
  exists K, (0 <= K)%Z /\ e = (- K)%Z /\
    (0 <= round_nearest_even (shr_m mrs) (loc_of_shr_record mrs) <= 2 ^ K)%Z.
Proof.
  intros Hq HN Hb. unfold shr_fexp, shr.
  assert (HD : (Zdigits2 q <= N + 1)%Z).
  { apply Zdigits2_le; [lia|]. destruct Hb as [?|[-> _]]; lia. }
  assert (HP : (fexp prec emax (Zdigits2 q + - N) - - N <= N)%Z).
  { rewrite fexp_binary64. lia. }
  destruct (fexp prec emax (Zdigits2 q + - N) - - N)%Z as [|P|P] eqn:HPe.
  - intros [= <- <-]. exists N. split; [lia|]. split; [lia|].
    rewrite shr_record_of_loc_m, loc_of_shr_record_of_loc.
    pose proof (round_nearest_even_le q l).
    destruct Hb as [?|[-> ->]]; simpl; lia.
  - intros [= <- <-]. exists (N - Zpos P)%Z. split; [lia|]. split; [lia|].
    rewrite iter_pos_nat.
    destruct Hb as [Hlt|[-> ->]].
    + destruct (shr_record_of_loc_eta q l) as (r & s & ->).
      destruct (iter_shr_1_m (Pos.to_nat P) q r s Hq) as (r' & s' & ->).
      rewrite positive_nat_Z. simpl shr_m.
      pose proof (round_nearest_even_le (q / 2 ^ Zpos P)
                    (loc_of_shr_record (Build_shr_record (q / 2 ^ Zpos P) r' s'))).
      assert (Hd : (q / 2 ^ Zpos P < 2 ^ (N - Zpos P))%Z).
      { apply Z.div_lt_upper_bound; [lia|].
        rewrite <- Z.pow_add_r by lia. replace (Zpos P + (N - Zpos P))%Z with N by lia. exact Hlt. }
      assert (0 <= q / 2 ^ Zpos P)%Z by (apply Z.div_pos; lia).
      lia.
    + simpl shr_record_of_loc.
      replace (2 ^ N)%Z with (2 ^ (N - Zpos P) * 2 ^ Z.of_nat (Pos.to_nat P))%Z.
      2: { rewrite positive_nat_Z, <- Z.pow_add_r by lia. f_equal. lia. }
      rewrite iter_shr_1_exact by (apply Z.pow_nonneg; lia).
      simpl. pose proof (Z.pow_nonneg 2 (N - Zpos P)). lia.
  - intros [= <- <-]. exists N. split; [lia|]. split; [lia|].
    rewrite shr_record_of_loc_m, loc_of_shr_record_of_loc.
    pose proof (round_nearest_even_le q l).
    destruct Hb as [?|[-> ->]]; simpl; lia.
Qed.

Lemma round_aux_le_one (q N : Z) (l : location) :
  (0 <= q)%Z -> (0 <= N)%Z -> ((q < 2 ^ N)%Z \/ ((q = 2 ^ N)%Z /\ l = loc_Exact)) ->
  le_one_SF (binary_round_aux prec emax false q (- N)%Z l).
Proof.
  intros Hq HN Hb. unfold binary_round_aux.
  destruct (shr_fexp prec emax q (- N)%Z l) as [mrs e] eqn:H1.
  destruct (round_stage1 q N l mrs e Hq HN Hb H1) as (K & HK & -> & Hm).
  remember (round_nearest_even (shr_m mrs) (loc_of_shr_record mrs)) as m eqn:Hmdef. clear Hmdef.
  destruct (shr_fexp prec emax m (- K)%Z loc_Exact) as [mrs2 e2] eqn:H2.
  change (Z.sub emax prec) with 971%Z.
  unfold shr_fexp, shr in H2.
  destruct (fexp prec emax (Zdigits2 m + - K) - - K)%Z as [|P|P].
  - injection H2 as <- <-. simpl shr_m.
    destruct m as [|pm|pm]; simpl; [exact I| |lia].
    destruct (Z.leb_spec (- K) 971); [|lia]. simpl. rewrite Z.opp_involutive. lia.
  - injection H2 as <- <-. rewrite iter_pos_nat.
    destruct (iter_shr_1_m (Pos.to_nat P) m false false ltac:(lia)) as (r' & s' & ->).
    rewrite positive_nat_Z. simpl shr_m.
    destruct (m / 2 ^ Zpos P)%Z as [|pm|pm] eqn:Hd; simpl; [exact I| |].
    + assert (HPm : (2 ^ Zpos P <= m)%Z).
      { destruct (Z.le_gt_cases (2 ^ Zpos P) m) as [?|Hlt]; [assumption|].
        rewrite Z.div_small in Hd by lia. discriminate. }
      assert (HPK : (Zpos P <= K)%Z) by (apply (Z.pow_le_mono_r_iff 2); lia).
      destruct (Z.leb_spec (- K + Zpos P) 971); [|lia]. simpl. split; [lia|].
      rewrite <- Hd. replace (- (- K + Zpos P))%Z with (K - Zpos P)%Z by lia.
      rewrite Z.pow_sub_r by lia. apply Z.div_le_mono; lia.
    + assert (0 <= m / 2 ^ Zpos P)%Z by (apply Z.div_pos; lia). lia.
  - injection H2 as <- <-. simpl shr_m.
    destruct m as [|pm|pm]; simpl; [exact I| |lia].
    destruct (Z.leb_spec (- K) 971); [|lia]. simpl. rewrite Z.opp_involutive. lia.
Qed.

Lemma new_location_exact (n : Z) : new_location n 0 = loc_Exact.
Proof. unfold new_location, new_location_even, new_location_odd. by destruct (Z.even n). Qed.

Lemma SFdiv_le_one (mx my : positive) (ex ey : Z) :
  (forall K, (0 <= K + ex)%Z -> (0 <= K + ey)%Z ->
     (Zpos mx * 2 ^ (K + ex) <= Zpos my * 2 ^ (K + ey))%Z) ->
  le_one_SF (SF64div (S754_finite false mx ex) (S754_finite false my ey)).
Proof.
  intros Hle. unfold SF64div, SFdiv, SFdiv_core_binary. cbv zeta.
  (* the operands' magnitudes: [2^(d1-1+ex) <= x <= y < 2^(d2+ey)] *)
  assert (Hd : (Zdigits2 (Zpos mx) + ex <= Zdigits2 (Zpos my) + ey)%Z).
  { simpl Zdigits2. rewrite (digits2_pos_size mx), (digits2_pos_size my).
    pose proof (size_bounds mx) as [Hx _]. pose proof (size_bounds my) as [_ Hy].
    set (K := (Z.abs ex + Z.abs ey)%Z).
    assert (HK0 : (0 <= K + ex)%Z /\ (0 <= K + ey)%Z) by (unfold K; lia).
    pose proof (Hle K ltac:(lia) ltac:(lia)) as HK.
    assert (H1 : (2 ^ (Zpos (Pos.size mx) - 1 + (K + ex)) <= Zpos mx * 2 ^ (K + ex))%Z).
    { rewrite Z.pow_add_r by lia. apply Z.mul_le_mono_nonneg_r; [apply Z.pow_nonneg|]; lia. }
    assert (H2 : (Zpos my * 2 ^ (K + ey) < 2 ^ (Zpos (Pos.size my) + (K + ey)))%Z).
    { rewrite (Z.pow_add_r 2 (Zpos (Pos.size my))) by lia.
      apply Z.mul_lt_mono_pos_r; [apply Z.pow_pos_nonneg|]; lia. }
    assert (Zpos (Pos.size mx) - 1 + (K + ex) < Zpos (Pos.size my) + (K + ey))%Z; [|lia].
    apply (Z.pow_lt_mono_r_iff 2); lia. }
  remember (fexp prec emax (Zdigits2 (Zpos mx) + ex - (Zdigits2 (Zpos my) + ey))) as F eqn:HF.
  rewrite fexp_binary64 in HF.
  remember (Z.min F (ex - ey)) as e' eqn:He'.
  remember (ex - ey - e')%Z as s eqn:Hs.
  assert (Hm' : match s with
                | 0%Z => Zpos mx
                | Zpos _ => Z.shiftl (Zpos mx) s
                | Zneg _ => 0%Z
                end = (Zpos mx * 2 ^ s)%Z).
  { destruct s as [|ps|ps].
    - lia.
    - apply Z.shiftl_mul_pow2. lia.
    - lia. }
  rewrite Hm'. clear Hm'.
  destruct (IntDef.Z.div_eucl (Zpos mx * 2 ^ s) (Zpos my)) as [q r] eqn:Hde.
  assert (Hq : q = (Zpos mx * 2 ^ s / Zpos my)%Z) by (unfold Z.div; now rewrite Hde).
  assert (Hr : r = (Zpos mx * 2 ^ s mod Zpos my)%Z) by (unfold Z.modulo; now rewrite Hde).
  simpl xorb.
  set (N := (- e')%Z).
  replace e' with (- N)%Z by (unfold N; lia).
  assert (HN : (53 <= N)%Z) by (unfold N; lia).
  assert (Hbound : (Zpos mx * 2 ^ s <= Zpos my * 2 ^ N)%Z).
  { pose proof (Hle (N - ey)%Z ltac:(lia) ltac:(lia)) as H.
    replace (N - ey + ex)%Z with s in H by (unfold N; lia).
    replace (N - ey + ey)%Z with N in H by lia. exact H. }
  assert (Hs0 : (0 <= 2 ^ s)%Z) by (apply Z.pow_nonneg; lia).
  apply round_aux_le_one; [| lia |].
  - rewrite Hq. apply Z.div_pos; lia.
  - assert (Hq2 : (q <= 2 ^ N)%Z).
    { rewrite Hq. apply Z.div_le_upper_bound; lia. }
    destruct (Z.le_gt_cases (2 ^ N) q) as [Hge|Hlt]; [right|left; lia].
    split; [lia|].
    assert (Hr0 : r = 0%Z).
    { assert (Hq3 : q = (2 ^ N)%Z) by lia.
      pose proof (Z.mod_pos_bound (Zpos mx * 2 ^ s) (Zpos my) ltac:(lia)) as H.
      rewrite Z.mod_eq in H by lia. rewrite <- Hq, Hq3 in H.
      rewrite Hr, Z.mod_eq by lia. rewrite <- Hq, Hq3. lia. }
    rewrite Hr0. apply new_location_exact.
Qed.

Lemma Pos_iter_xO (p k : positive) : Zpos (Pos.iter xO p k) = (Zpos p * 2 ^ Zpos k)%Z.
Proof.
  induction k as [|k IH] using Pos.peano_ind.
  - simpl. lia.
  - rewrite Pos.iter_succ, Pos2Z.inj_xO, IH, Pos2Z.inj_succ, Z.pow_succ_r by lia. ring.
Qed.

Lemma round_aux_exact53 (m : positive) (e : Z) :
  (2 ^ 52 <= Zpos m < 2 ^ 53)%Z -> (-1074 <= e <= 971)%Z ->
  binary_round_aux prec emax false (Zpos m) e loc_Exact = S754_finite false m e.
Proof.
  intros Hm He. unfold binary_round_aux, shr_fexp.
  assert (Hd : Zdigits2 (Zpos m) = 53%Z).
  { simpl. rewrite digits2_pos_size. apply size_unique; lia. }
  rewrite Hd, fexp_binary64.
  replace (Z.max (53 + e - 53) (-1074) - e)%Z with 0%Z by lia.
  simpl shr. cbv beta iota delta [shr_m loc_of_shr_record round_nearest_even].
  rewrite Hd, fexp_binary64.
  replace (Z.max (53 + e - 53) (-1074) - e)%Z with 0%Z by lia.
  simpl shr. cbv beta iota delta [shr_m].
  change (Z.sub emax prec) with 971%Z.
  destruct (IntDef.Z.leb e 971) eqn:Hl; [reflexivity|].
  exfalso. change (Z.leb e 971 = false) in Hl. apply Z.leb_gt in Hl. lia.
Qed.

Lemma float64_of_nat_exact (n : nat) :
  (0 < Z.of_nat n < 2 ^ 53)%Z ->
  exists m e, Prim2SF (float64_of_nat n) = S754_finite false m e /\
    (e <= 0)%Z /\ Zpos m = (Z.of_nat n * 2 ^ (- e))%Z.
Proof.
  intros Hn. unfold float64_of_nat. rewrite of_uint63_spec, Uint63.of_Z_spec.
  change Uint63.wB with (2 ^ 63)%Z.
  rewrite Z.mod_small by lia.
  destruct (Z.of_nat n) as [|p|p] eqn:Hnp; [lia| |lia].
  unfold binary_normalize, binary_round.
  rewrite digits2_pos_size, fexp_binary64.
  pose proof (size_bounds p) as [Hlo Hhi].
  assert (Hs : (Zpos (Pos.size p) <= 53)%Z).
  { assert (Zpos (Pos.size p) - 1 < 53)%Z; [|lia]. apply (Z.pow_lt_mono_r_iff 2); lia. }
  replace (Z.max (Zpos (Pos.size p) + 0 - 53) (-1074))%Z with (Zpos (Pos.size p) - 53)%Z by lia.
  unfold shl_align. rewrite Z.sub_0_r.
  destruct (Zpos (Pos.size p) - 53)%Z as [|k|k] eqn:Hk.
  - exists p, 0%Z. split; [|split; [lia|]].
    + apply round_aux_exact53; [|lia].
      replace (Zpos (Pos.size p)) with 53%Z in * by lia. split; lia.
    + simpl. lia.
  - lia.
  - exists (Pos.iter xO p k), (Zneg k). split; [|split; [lia|]].
    + apply round_aux_exact53; [|lia].
      rewrite Pos_iter_xO.
      assert (Hk' : Zpos k = (53 - Zpos (Pos.size p))%Z) by lia.
      rewrite Hk'. split.
      * replace 52%Z with (Zpos (Pos.size p) - 1 + (53 - Zpos (Pos.size p)))%Z at 1 by lia.
        rewrite Z.pow_add_r by lia. apply Z.mul_le_mono_nonneg_r; [apply Z.pow_nonneg|]; lia.
      * replace 53%Z with (Zpos (Pos.size p) + (53 - Zpos (Pos.size p)))%Z at 2 by lia.
        rewrite (Z.pow_add_r 2 (Zpos (Pos.size p))) by lia.
        apply Z.mul_lt_mono_pos_r; [apply Z.pow_pos_nonneg|]; lia.
    + rewrite Pos_iter_xO. reflexivity.
Qed.

Lemma compare_cont_le_pow52 (m t : positive) : Zpos t = (2 ^ 52)%Z -> (Zpos m <= 2 ^ 52)%Z ->
  match Pos.compare_cont Eq m t with Gt => false | _ => true end = true.
Proof.
  intros Ht Hm2. change (Pos.compare_cont Eq m t) with (Pos.compare m t).
  destruct (Pos.compare_spec m t) as [|Hc|Hc]; try reflexivity.
  apply Pos2Z.pos_lt_pos in Hc. rewrite Ht in Hc. lia.
Qed.

Lemma le_one_SF_bounds (x : float) :
  le_one_SF (Prim2SF x) -> (0 <=? x)%float = true /\ (x <=? 1)%float = true.
Proof.
  intros H. rewrite !FloatAxioms.leb_spec.
  assert (H0 : Prim2SF 0%float = S754_zero false) by reflexivity.
  assert (H1 : Prim2SF 1%float = S754_finite false 4503599627370496 (-52)) by reflexivity.
  rewrite H0, H1. pose proof (Prim2SF_valid x) as Hv.
  destruct (Prim2SF x) as [[]|[]| |[] m e]; simpl in H; try contradiction.
  - split; reflexivity.
  - destruct H as [He Hm]. split; [reflexivity|].
    unfold SFleb, SFcompare.
    destruct (Z.compare_spec e (-52)) as [->|Hlt|Hgt].
    + change (IntDef.Z.compare (-52) (-52)) with Eq. cbv iota.
      apply (compare_cont_le_pow52 m 4503599627370496); [reflexivity|exact Hm].
    + reflexivity.
    + exfalso.
      unfold SpecFloat.valid_binary, bounded, canonical_mantissa in Hv.
      apply andb_prop in Hv as [Hc _]. apply Z.eqb_eq in Hc.
      rewrite fexp_binary64, digits2_pos_size in Hc.
      pose proof (size_bounds m) as [Hlo _].
      assert (Hs : Zpos (Pos.size m) = 53%Z) by lia.
      rewrite Hs in Hlo.
      assert (H2 : (2 ^ (- e) <= 2 ^ 51)%Z) by (apply Z.pow_le_mono_r; lia).
      assert (Hx : (2 ^ (53 - 1) <= 2 ^ 51)%Z).
      { eapply Z.le_trans; [exact Hlo|]. eapply Z.le_trans; [exact Hm|exact H2]. }
      exact (Hx eq_refl).
Qed.

Lemma MissFraction_le_one (r : result) :
  (0 < Z.of_nat (HitCount r + MissCount r) < 2 ^ 53)%Z ->
  le_one_SF (Prim2SF (MissFraction r)).
Proof.
  intros Hn. unfold MissFraction. cbv zeta. rewrite FloatAxioms.div_spec.
  destruct (float64_of_nat_exact (HitCount r + MissCount r) Hn) as (my & ey & Hy & Hey & Hmy).
  rewrite Hy.
  destruct (MissCount r) as [|k] eqn:Hmc.
  - reflexivity.
  - destruct (float64_of_nat_exact (S k) ltac:(lia)) as (mx & ex & Hx & Hex & Hmx).
    rewrite Hx. apply SFdiv_le_one. intros K HK1 HK2.
    rewrite Hmx, Hmy, <- !Z.mul_assoc, <- !Z.pow_add_r by lia.
    replace (- ex + (K + ex))%Z with K by lia.
    replace (- ey + (K + ey))%Z with K by lia.
    apply Z.mul_le_mono_nonneg_r; [apply Z.pow_nonneg|]; lia.
Qed.

(** C4: [MissFraction] is NaN when the file has no hits and no misses
    ([float64(0)/float64(0)]: the division has no zero guard); when the
    total [HitCount + MissCount] is positive and below 2^53 it lies in [0,1]. *)
Lemma MissFraction_range (r : result) :
  (HitCount r = 0%nat -> MissCount r = 0%nat -> is_nan (MissFraction r) = true) /\
  ((0 < Z.of_nat (HitCount r + MissCount r) < 2 ^ 53)%Z ->
   (0 <=? MissFraction r)%float = true /\ (MissFraction r <=? 1)%float = true).
Proof.
  split.
  - intros Hh Hm. unfold MissFraction. cbv zeta. rewrite Hh, Hm. vm_compute. reflexivity.
  - intros Hn. apply le_one_SF_bounds, MissFraction_le_one, Hn.
Qed.

Lemma MissFraction_range_witness :
  let r := mkResult "a.go"%string 3 ∅ [0%Z] [1%Z; 2%Z] [] in
  (0 < Z.of_nat (HitCount r + MissCount r) < 2 ^ 53)%Z /\
  (0 <=? MissFraction r)%float = true /\ (MissFraction r <=? 1)%float = true.
Proof.
  cbv zeta. split; [vm_compute; split; reflexivity|].
  apply (proj2 (MissFraction_range (mkResult "a.go"%string 3 ∅ [0%Z] [1%Z; 2%Z] []))).
  vm_compute; split; reflexivity.
Defined.

(** C4, counterexample: a result with no hits and no misses has a NaN
    fraction, not 0; NaN is neither equal to 0 nor at least 0. *)
Lemma MissFraction_zero_counts_counterexample :
  let r := mkResult "n.go"%string 1 ∅ [] [] [0%Z] in
  HitCount r = 0%nat /\ MissCount r = 0%nat /\
  is_nan (MissFraction r) = true /\ (MissFraction r =? 0)%float = false /\
  (0 <=? MissFraction r)%float = false.
Proof. vm_compute. repeat split; reflexivity. Qed.

(* ------------------------------------------------------------------ *)
(** ** lineCounter's read loop and escaper.Read *)

Lemma bytes_Count_nl (s : list Byte.byte) : bytes_Count s Byte.x0a = lineCounter s.
Proof. induction s as [|b s IH]; simpl; [done|]. by rewrite IH. Qed.

Lemma lineCounter_app (a b : list Byte.byte) : lineCounter (a ++ b) = (lineCounter a + lineCounter b)%Z.
Proof. induction a as [|x a IH]; simpl; [lia|]. rewrite IH. lia. Qed.

Lemma int_wrap_small (z : Z) : (- 2 ^ 63 <= z < 2 ^ 63)%Z -> int_wrap z = z.
Proof.
  intros H. unfold int_wrap. rewrite Z.mod_small by lia. lia.
Qed.

Lemma lineCounter_loop_chunks (chunks : list (list Byte.byte)) (last : list Byte.byte)
    (e : go_error) rest (acc : Z) :
  Forall (fun c => Z.of_nat (length c) <= 32768)%Z (chunks ++ [last]) ->
  lineCounter_loop (map (fun c => (c, None)) chunks ++ (last, Some e) :: rest) acc =
  Some (int_wrap (acc + lineCounter (concat chunks ++ last)),
        match e with EOF => None | ErrOther m => Some (ErrOther m) end).
Proof.
  revert acc; induction chunks as [|c chunks IH]; intros acc Hf; simpl in *.
  - apply Forall_cons in Hf as [Hl _]. cbv beta in Hl.
    replace (32 * 1024 <? Z.of_nat (length last))%Z with false by (symmetry; apply Z.ltb_ge; lia).
    rewrite bytes_Count_nl. destruct e; reflexivity.
  - apply Forall_cons in Hf as [Hc Hf]. cbv beta in Hc.
    replace (32 * 1024 <? Z.of_nat (length c))%Z with false by (symmetry; apply Z.ltb_ge; lia).
    rewrite IH by exact Hf. rewrite int_wrap_add_l, bytes_Count_nl.
    rewrite <- ?app_assoc, (lineCounter_app c), Z.add_assoc. reflexivity.
Qed.

(** lineCounter on a reader whose reads end in [io.EOF]: the result is the
    number of newline bytes in everything read, with a nil error; reads
    after the EOF are never made. *)
Lemma lineCounter_io_eof (chunks : list (list Byte.byte)) (last : list Byte.byte) rest :
  Forall (fun c => Z.of_nat (length c) <= 32 * 1024)%Z (chunks ++ [last]) ->
  (lineCounter (concat chunks ++ last) < 2 ^ 63)%Z ->
  lineCounter_io (map (fun c => (c, None)) chunks ++ (last, Some EOF) :: rest) =
  Some (lineCounter (concat chunks ++ last), None).
Proof.
  intros Hf Hb. unfold lineCounter_io. rewrite lineCounter_loop_chunks by exact Hf.
  pose proof (lineCounter_nonneg (concat chunks ++ last)).
  rewrite int_wrap_small by lia. reflexivity.
Qed.

(** lineCounter on a reader whose last read fails with an error other than
    [io.EOF]: it returns that error together with the newlines counted so
    far, including those of the failing read. *)
Lemma lineCounter_io_error (chunks : list (list Byte.byte)) (last : list Byte.byte) msg rest :
  Forall (fun c => Z.of_nat (length c) <= 32 * 1024)%Z (chunks ++ [last]) ->
  (lineCounter (concat chunks ++ last) < 2 ^ 63)%Z ->
  lineCounter_io (map (fun c => (c, None)) chunks ++ (last, Some (ErrOther msg)) :: rest) =
  Some (lineCounter (concat chunks ++ last), Some (ErrOther msg)).
Proof.
  intros Hf Hb. unfold lineCounter_io. rewrite lineCounter_loop_chunks by exact Hf.
  pose proof (lineCounter_nonneg (concat chunks ++ last)).
  rewrite int_wrap_small by lia. reflexivity.
Qed.

Lemma escape_byte_length (b : Byte.byte) : (1 <= length (escape_byte b) <= 2)%nat.
Proof. unfold escape_byte. destruct (_ || _); [simpl; lia|]. destruct (Byte.eqb b _); simpl; lia. Qed.

Lemma escape_bytes_app (a b : list Byte.byte) :
  escape_bytes (a ++ b) = escape_bytes a ++ escape_bytes b.
Proof. unfold escape_bytes. apply flat_map_app. Qed.

Lemma escape_bytes_length_ge (l : list Byte.byte) : (length l <= length (escape_bytes l))%nat.
Proof.
  induction l as [|b l IH]; simpl; [lia|].
  rewrite length_app. pose proof (escape_byte_length b). fold (escape_bytes l). lia.
Qed.

Lemma length_splice (p : list Byte.byte) n xs :
  (n + length xs <= length p)%nat -> length (splice p n xs) = length p.
Proof.
  intros H. unfold splice. rewrite !length_app, length_take, length_drop. lia.
Qed.

Lemma splice_nil (p : list Byte.byte) n : splice p n [] = p.
Proof. unfold splice. simpl. rewrite Nat.add_0_r. apply take_drop. Qed.

Lemma splice_app (p : list Byte.byte) n xs ys :
  (n + length xs + length ys <= length p)%nat ->
  splice (splice p n xs) (n + length xs) ys = splice p n (xs ++ ys).
Proof.
  intros H. unfold splice.
  assert (HA : length (take n p) = n) by (rewrite length_take; lia).
  assert (H1 : take (n + length xs) (take n p ++ xs ++ drop (n + length xs) p) = take n p ++ xs).
  { rewrite app_assoc. rewrite <- HA at 1.
    replace (length (take n p) + length xs)%nat with (length (take n p ++ xs))
      by (rewrite length_app; lia).
    apply take_app_length. }
  assert (H2 : drop (n + length xs + length ys) (take n p ++ xs ++ drop (n + length xs) p)
               = drop (n + length (xs ++ ys)) p).
  { rewrite app_assoc, drop_app_ge by (rewrite length_app; lia).
    rewrite length_app, HA, drop_drop. f_equal. rewrite length_app. lia. }
  rewrite H1, H2. rewrite <- !app_assoc. reflexivity.
Qed.

Lemma go_store_splice (p : list Byte.byte) n b :
  (n < length p)%nat -> go_store p n b = Some (splice p n [b]).
Proof.
  intros H. unfold go_store, splice.
  rewrite (proj2 (Nat.ltb_lt _ _) H), insert_take_drop by exact H.
  simpl. rewrite Nat.add_1_r. reflexivity.
Qed.

Lemma go_store_out (p : list Byte.byte) n b :
  (length p <= n)%nat -> go_store p n b = None.
Proof. intros H. unfold go_store. by rewrite (proj2 (Nat.ltb_ge _ _) H). Qed.

Lemma store_pair (p : list Byte.byte) n a b :
  (n < length p)%nat ->
  match go_store p n a with
  | None => None
  | Some p1 => go_store p1 (S n) b
  end = if (S n <? length p)%nat then Some (splice p n [a; b]) else None.
Proof.
  intros H. rewrite go_store_splice by exact H.
  destruct (Nat.ltb_spec (S n) (length p)) as [Hs|Hs].
  - rewrite go_store_splice by (rewrite length_splice; simpl; lia).
    replace (S n) with (n + length [a])%nat by (simpl; lia).
    rewrite splice_app by (simpl; lia). reflexivity.
  - apply go_store_out. rewrite length_splice; simpl; lia.
Qed.

Lemma escape_loop_step (b : Byte.byte) nw i n (p : list Byte.byte) :
  (n < length p)%nat ->
  escape_loop (b :: nw) i n p =
  if (n + length (escape_byte b) <=? length p)%nat
  then escape_loop nw (S i) (n + length (escape_byte b)) (splice p n (escape_byte b))
  else None.
Proof.
  intros H. cbn [escape_loop]. rewrite (proj2 (Nat.ltb_lt _ _) H).
  unfold escape_byte.
  destruct (Byte.eqb b Byte.x22 || Byte.eqb b Byte.x5c).
  - pose proof (store_pair p n Byte.x5c b H) as Hs.
    destruct (go_store p n Byte.x5c) as [p1|]; simpl length.
    + destruct (go_store p1 (S n) b) as [p2|]; destruct (Nat.ltb_spec (S n) (length p));
        destruct (Nat.leb_spec (n + 2) (length p)); try lia; try discriminate; try reflexivity.
      injection Hs as ->. f_equal. lia.
    + destruct (Nat.ltb_spec (S n) (length p)); destruct (Nat.leb_spec (n + 2) (length p));
        try lia; try discriminate; reflexivity.
  - destruct (Byte.eqb b Byte.x0a).
    + pose proof (store_pair p n Byte.x5c Byte.x6e H) as Hs.
      destruct (go_store p n Byte.x5c) as [p1|]; simpl length.
      * destruct (go_store p1 (S n) Byte.x6e) as [p2|]; destruct (Nat.ltb_spec (S n) (length p));
          destruct (Nat.leb_spec (n + 2) (length p)); try lia; try discriminate; try reflexivity.
        injection Hs as ->. f_equal. lia.
      * destruct (Nat.ltb_spec (S n) (length p)); destruct (Nat.leb_spec (n + 2) (length p));
          try lia; try discriminate; reflexivity.
    + rewrite go_store_splice by exact H. simpl length.
      destruct (Nat.leb_spec (n + 1) (length p)); [|lia].
      f_equal. lia.
Qed.

Lemma escape_loop_fits (pre rest : list Byte.byte) i n (p : list Byte.byte) :
  (n + length (escape_bytes pre) <= length p)%nat ->
  escape_loop (pre ++ rest) i n p =
  escape_loop rest (i + length pre) (n + length (escape_bytes pre)) (splice p n (escape_bytes pre)).
Proof.
  revert i n p; induction pre as [|b pre IH]; intros i n p H.
  - simpl. rewrite !Nat.add_0_r, splice_nil. reflexivity.
  - cbn [app length escape_bytes flat_map] in *. fold (escape_bytes pre) in *.
    rewrite length_app in H. pose proof (escape_byte_length b).
    rewrite escape_loop_step by lia.
    destruct (Nat.leb_spec (n + length (escape_byte b)) (length p)); [|lia].
    rewrite IH by (rewrite length_splice; lia).
    rewrite splice_app by lia. rewrite length_app.
    f_equal; lia.
Qed.

Lemma escape_loop_result (nw : list Byte.byte) i n (p : list Byte.byte) i' n' p' :
  (n <= length p)%nat ->
  escape_loop nw i n p = Some (i', n', p') ->
  exists k, (k <= length nw)%nat /\ i' = (i + k)%nat /\
    n' = (n + length (escape_bytes (take k nw)))%nat /\ (n' <= length p)%nat /\
    p' = splice p n (escape_bytes (take k nw)) /\
    (k = length nw \/ n' = length p).
Proof.
  revert i n p; induction nw as [|b nw IH]; intros i n p Hn Hl.
  - simpl in Hl. injection Hl as <- <- <-.
    exists 0%nat. simpl. rewrite splice_nil. repeat split; lia.
  - destruct (Nat.ltb_spec n (length p)) as [Hlt|Hge].
    + rewrite escape_loop_step in Hl by exact Hlt.
      destruct (Nat.leb_spec (n + length (escape_byte b)) (length p)) as [Hf|]; [|discriminate].
      apply IH in Hl as (k & Hk & -> & -> & Hle & -> & Hend); [|rewrite length_splice; lia].
      rewrite length_splice in Hle, Hend by lia.
      exists (S k). simpl take. cbn [escape_bytes flat_map]. fold (escape_bytes (take k nw)).
      assert (Hk' : (n + length (escape_byte b) + length (escape_bytes (take k nw)) <= length p)%nat) by lia.
      rewrite splice_app by exact Hk'. rewrite length_app.
      simpl length. repeat split; lia.
    + cbn [escape_loop] in Hl. rewrite (proj2 (Nat.ltb_ge _ _) Hge) in Hl.
      injection Hl as <- <- <-.
      exists 0%nat. simpl. rewrite splice_nil. repeat split; lia.
Qed.

Lemma splice_0 (p xs : list Byte.byte) : splice p 0 xs = xs ++ drop (length xs) p.
Proof. reflexivity. Qed.

(** escaper.Read, when the escaped form of [e.old ++ chunk] fits in [p]:
    [p] starts with the escaped bytes, the rest of [p] is untouched, [n] is
    the escaped length, the inner error is passed on and [e.old] is empty. *)
Lemma escaper_Read_fits (old chunk p : list Byte.byte) err :
  (length (escape_bytes (old ++ chunk)) <= length p)%nat ->
  escaper_Read old p (chunk, err) =
  Some (escape_bytes (old ++ chunk) ++ drop (length (escape_bytes (old ++ chunk))) p,
        length (escape_bytes (old ++ chunk)), err, []).
Proof.
  intros H. pose proof (escape_bytes_length_ge (old ++ chunk)) as Hge.
  rewrite length_app in Hge.
  unfold escaper_Read.
  destruct (Nat.ltb_spec (length p) (length old)); [lia|].
  destruct (Nat.ltb_spec (length p - length old) (length chunk)); [lia|].
  rewrite <- (app_nil_r (old ++ chunk)) at 1.
  rewrite escape_loop_fits by (simpl; lia). simpl.
  destruct (Nat.ltb_spec (length p) (length (old ++ chunk))) as [Hc|]; [rewrite length_app in Hc; lia|].
  reflexivity.
Qed.

(** Whatever escaper.Read returns without panicking: [e.old] is empty
    afterwards (the branch that would keep unread bytes never runs),
    [p[:n]] is the escaping of a prefix of [e.old ++ chunk], and when the
    escaped form is longer than [p] that prefix is proper, so the remaining
    input bytes are dropped. *)
Lemma escaper_Read_result (old chunk p p' : list Byte.byte) err n err' old' :
  escaper_Read old p (chunk, err) = Some (p', n, err', old') ->
  old' = [] /\ err' = err /\
  exists k, (k <= length (old ++ chunk))%nat /\
    n = length (escape_bytes (take k (old ++ chunk))) /\
    p' = escape_bytes (take k (old ++ chunk)) ++ drop n p /\
    ((length p < length (escape_bytes (old ++ chunk)))%nat -> (k < length (old ++ chunk))%nat).
Proof.
  unfold escaper_Read.
  destruct (Nat.ltb_spec (length p) (length old)); [discriminate|].
  destruct (Nat.ltb_spec (length p - length old) (length chunk)); [discriminate|].
  destruct (escape_loop (old ++ chunk) 0 0 p) as [[[i n0] p0]|] eqn:Hl; [|discriminate].
  apply escape_loop_result in Hl as (k & Hk & Hi & Hn & Hle & Hp & Hend); [|lia].
  simpl in Hi, Hn. subst i n0 p0.
  pose proof (escape_bytes_length_ge (take k (old ++ chunk))) as Hge.
  rewrite length_take in Hge.
  destruct (Nat.ltb_spec (length p) k); [lia|].
  intros Heq. injection Heq as <- <- <- <-.
  split; [reflexivity|]. split; [reflexivity|].
  exists k. split; [exact Hk|]. split; [reflexivity|]. split; [apply splice_0|].
  intros Hlong. destruct (Nat.eq_dec k (length (old ++ chunk))) as [Hk'|Hne]; [|lia].
  rewrite Hk', take_ge in Hle by lia. lia.
Qed.

(** escaper.Read panics (index out of range) when a byte that escapes to
    two bytes (a double quote, a backslash or a newline) reaches the last
    slot of [p]. *)
Lemma escaper_Read_straddle_panics (old chunk pre post p : list Byte.byte) b err :
  (length old + length chunk <= length p)%nat ->
  old ++ chunk = pre ++ b :: post ->
  (b = Byte.x22 \/ b = Byte.x5c \/ b = Byte.x0a) ->
  (length (escape_bytes pre) + 1 = length p)%nat ->
  escaper_Read old p (chunk, err) = None.
Proof.
  intros Hlen Hsplit Hb Hpre. unfold escaper_Read.
  destruct (Nat.ltb_spec (length p) (length old)); [lia|].
  destruct (Nat.ltb_spec (length p - length old) (length chunk)); [lia|].
  rewrite Hsplit, escape_loop_fits by lia.
  rewrite escape_loop_step by (rewrite length_splice; lia).
  rewrite length_splice by lia.
  assert (H2 : length (escape_byte b) = 2%nat) by (destruct Hb as [->|[->| ->]]; reflexivity).
  rewrite H2. destruct (Nat.leb_spec (0 + length (escape_bytes pre) + 2) (length p)); [lia|].
  reflexivity.
Qed.

(* ------------------------------------------------------------------ *)
(** ** Ingestion: blocks, path errors and the keys of the results map *)

Lemma fold_add_count_lookup c (l : list Z) (cs : gmap Z Z) ln :
  NoDup l ->
  fold_left (add_count c) l cs !! ln =
  if bool_decide (ln ∈ l) then Some (int_wrap (default 0%Z (cs !! ln) + c)) else cs !! ln.
Proof.
  revert cs; induction l as [|x l IH]; intros cs Hnd; simpl; [done|].
  apply NoDup_cons in Hnd as [Hx Hnd].
  rewrite IH by exact Hnd. unfold add_count.
  destruct (decide (ln = x)) as [->|Hne].
  - rewrite bool_decide_false by exact Hx. rewrite bool_decide_true by set_solver.
    by rewrite lookup_insert_eq.
  - rewrite lookup_insert_ne by congruence.
    destruct (bool_decide (ln ∈ l)) eqn:H1, (bool_decide (ln ∈ x :: l)) eqn:H2; try done.
    + apply bool_decide_eq_true in H1. apply bool_decide_eq_false in H2. set_solver.
    + apply bool_decide_eq_false in H1. apply bool_decide_eq_true in H2. set_solver.
Qed.

(** Ingesting one block adds its count (in 64-bit [int] arithmetic, a
    missing line reading as 0) to every line from [StartLine] to [EndLine]
    inclusive and changes no other line; a block with [StartLine > EndLine]
    changes nothing. *)
Lemma ingest_block_lookup (cs : gmap Z Z) (pb : ProfileBlock) (ln : Z) :
  ingest_block cs pb !! ln =
  if bool_decide (StartLine pb <= ln <= EndLine pb)%Z
  then Some (int_wrap (default 0%Z (cs !! ln) + Count pb))
  else cs !! ln.
Proof.
  unfold ingest_block. rewrite fold_add_count_lookup by apply NoDup_seqZ.
  rewrite (bool_decide_ext _ (StartLine pb <= ln <= EndLine pb)%Z); [reflexivity|].
  rewrite elem_of_seqZ. lia.
Qed.

(** In ingestCoverageFile, a profile record whose path [filepath.Rel]
    cannot relate to the project root ends the ingestion of its file: the
    records after it are ignored, those before it are kept. *)
Lemma ingest_profiles_stops canon (ps1 : list Profile) (p : Profile) (ps2 : list Profile)
    (m : gmap string result) :
  canon (FileName p) = None ->
  ingest_profiles canon (ps1 ++ p :: ps2) m = ingest_profiles canon ps1 m.
Proof.
  intros Hp. revert m; induction ps1 as [|q ps1 IH]; intros m; simpl.
  - by rewrite Hp.
  - destruct (canon (FileName q)); [apply IH|reflexivity].
Qed.

Lemma touched_app (A B : list tally_op) k : touched (A ++ B) k = touched A k || touched B k.
Proof. unfold touched. apply existsb_app. Qed.

Lemma touched_block_ops rn (B : list ProfileBlock) k :
  touched (flat_map (block_ops rn) B) k = true -> rn = k.
Proof.
  induction B as [|pb B IH]; simpl; [discriminate|].
  rewrite touched_app. intros [H|H]%orb_true_iff; [|by apply IH].
  unfold block_ops, touched in H. apply existsb_exists in H as (o & Ho & Hk).
  apply in_map_iff in Ho as (ln & <- & _). by apply bool_decide_eq_true in Hk.
Qed.

Lemma profile_ops_touched canon (ps : list Profile) k :
  touched (profile_ops canon ps) k = true <->
  exists ps1 p ps2, ps = ps1 ++ p :: ps2 /\
    Forall (fun q => is_Some (canon (FileName q))) ps1 /\ canon (FileName p) = Some k.
Proof.
  induction ps as [|p ps IH]; simpl.
  - split; [discriminate|]. intros (ps1 & p & ps2 & H & _). by destruct ps1.
  - destruct (canon (FileName p)) as [rn|] eqn:Hp.
    + cbn [touched existsb op_key]. fold (touched (flat_map (block_ops rn) (Blocks p) ++ profile_ops canon ps) k).
      rewrite orb_true_iff, touched_app, orb_true_iff, IH.
      split.
      * intros [Hk|[Hb|(ps1 & q & ps2 & -> & Hf & Hq)]].
        -- apply bool_decide_eq_true in Hk. subst rn. exists [], p, ps. auto.
        -- apply touched_block_ops in Hb. subst rn. exists [], p, ps. auto.
        -- exists (p :: ps1), q, ps2. split; [reflexivity|]. split; [|exact Hq].
           constructor; [rewrite Hp; eexists; reflexivity|exact Hf].
      * intros ([|q ps1] & q' & ps2 & Heq & Hf & Hq); simpl in Heq; injection Heq as <- ->.
        -- left. apply bool_decide_eq_true. congruence.
        -- right. right. exists ps1, q', ps2. apply Forall_cons in Hf as [_ Hf]. auto.
    + split; [discriminate|].
      intros ([|q ps1] & q' & ps2 & Heq & Hf & Hq); simpl in Heq; injection Heq as <- ->.
      * congruence.
      * apply Forall_cons in Hf as [[? Hq'] _]. congruence.
Qed.

(** After the ingestion loop, the results map has an entry for [k] exactly
    when some profile file that parses has a record whose path canonicalises
    to [k] and every record before it in that file canonicalises. *)
Lemma ingest_all_keys pp canon (files : list string) k :
  is_Some (Results (ingest_all pp canon files) !! k) <->
  exists fp ps1 p ps2, In fp files /\ pp fp = Some (ps1 ++ p :: ps2) /\
    Forall (fun q => is_Some (canon (FileName q))) ps1 /\ canon (FileName p) = Some k.
Proof.
  rewrite ingest_all_ops, fold_ops_lookup, lookup_empty.
  assert (Ht : touched (flat_map (file_ops pp canon) files) k = true <->
    exists fp ps1 p ps2, In fp files /\ pp fp = Some (ps1 ++ p :: ps2) /\
      Forall (fun q => is_Some (canon (FileName q))) ps1 /\ canon (FileName p) = Some k).
  { induction files as [|fp files IH]; simpl.
    - split; [discriminate|]. intros (? & ? & ? & ? & [] & _).
    - rewrite touched_app, orb_true_iff, IH. unfold file_ops.
      split.
      + intros [H|(fp' & ps1 & p & ps2 & Hin & H)].
        * destruct (pp fp) as [ps|] eqn:Hpp; [|discriminate].
          apply profile_ops_touched in H as (ps1 & p & ps2 & -> & Hf & Hk).
          exists fp, ps1, p, ps2. auto.
        * exists fp', ps1, p, ps2. auto.
      + intros (fp' & ps1 & p & ps2 & [<-|Hin] & Hpp & Hf & Hk).
        * left. rewrite Hpp. apply profile_ops_touched. exists ps1, p, ps2. auto.
        * right. exists fp', ps1, p, ps2. auto. }
  rewrite <- Ht.
  destruct (touched _ k); split; try done; intros [? H]; discriminate.
Qed.

(* ------------------------------------------------------------------ *)
(** ** Classification: overflowed counts and files with no counted line *)

Lemma In_Misses_classify (r : result) ln :
  (0 <= ln < lines r)%Z -> line_kind (counts r) ln = KMiss -> In ln (Misses (classify r)).
Proof.
  intros Hln Hk. destruct (classify_fields r) as (_ & _ & _ & _ & Hm & _).
  cbv zeta in Hm. rewrite Hm. apply in_or_app. right.
  apply In_select. split; [|exact Hk]. apply list_elem_of_In, elem_of_seqZ. lia.
Qed.

(** Counts are summed in 64-bit [int]: two positive counts of one line whose
    sum exceeds 2^63-1 wrap to a negative count, and the line is then
    classified as a miss. *)
Lemma overflowed_count_is_miss (r : result) (ln a c : Z) :
  (0 <= ln < lines r)%Z -> counts r !! ln = Some a ->
  (0 < a < 2 ^ 63)%Z -> (0 < c < 2 ^ 63)%Z -> (2 ^ 63 <= a + c)%Z ->
  add_count c (counts r) ln !! ln = Some (a + c - 2 ^ 64)%Z /\
  In ln (Misses (classify (set_counts (add_count c (counts r) ln) r))).
Proof.
  intros Hln Ha Ha' Hc Hac.
  assert (Hw : int_wrap (a + c) = (a + c - 2 ^ 64)%Z).
  { unfold int_wrap.
    rewrite <- (Z.mod_unique (a + c + 2 ^ 63) (2 ^ 64) 1 (a + c + 2 ^ 63 - 2 ^ 64)); lia. }
  assert (Hl : add_count c (counts r) ln !! ln = Some (a + c - 2 ^ 64)%Z).
  { unfold add_count. rewrite lookup_insert_eq, Ha. simpl. by rewrite Hw. }
  split; [exact Hl|].
  apply In_Misses_classify; [exact Hln|]. simpl. unfold line_kind. rewrite Hl.
  destruct (Z.ltb_spec 0 (a + c - 2 ^ 64)); [lia|reflexivity].
Qed.

Lemma MissFraction_zero_zero (r : result) :
  HitCount r = 0%nat -> MissCount r = 0%nat -> is_nan (MissFraction r) = true.
Proof. intros Hh Hm. unfold MissFraction. cbv zeta. rewrite Hh, Hm. vm_compute. reflexivity. Qed.

Lemma select_none cs k (l : list Z) :
  k <> KIgnored -> (forall ln, In ln l -> cs !! ln = None) -> select cs k l = [].
Proof.
  intros Hk Hl. unfold select. induction l as [|ln l IH]; simpl; [done|].
  unfold line_kind at 1. rewrite (Hl ln (or_introl eq_refl)).
  destruct k; simpl; try congruence; apply IH; intros; apply Hl; right; assumption.
Qed.

(** A file none of whose lines [0 .. lines-1] has a count (for instance an
    empty source file, or one whose blocks all lie past its end) is
    classified with no hits and no misses, and its MissFraction is NaN. *)
Lemma classify_uncovered_nan (r : result) :
  is_tally r ->
  (forall ln, (0 <= ln < lines r)%Z -> counts r !! ln = None) ->
  Hits (classify r) = [] /\ Misses (classify r) = [] /\
  is_nan (MissFraction (classify r)) = true.
Proof.
  intros Ht Hn. destruct (classify_tally_fields r Ht) as (_ & _ & _ & Hh & Hm & _).
  cbv zeta in Hh, Hm.
  assert (Hs : forall ln, In ln (seqZ 0 (lines r)) -> counts r !! ln = None).
  { intros ln Hin. apply Hn. apply list_elem_of_In, elem_of_seqZ in Hin. lia. }
  assert (Hh0 : Hits (classify r) = []) by (rewrite Hh; apply select_none; [done|exact Hs]).
  assert (Hm0 : Misses (classify r) = []) by (rewrite Hm; apply select_none; [done|exact Hs]).
  split; [exact Hh0|]. split; [exact Hm0|].
  apply MissFraction_zero_zero; unfold HitCount, MissCount; [rewrite Hh0|rewrite Hm0]; reflexivity.
Qed.

(* ------------------------------------------------------------------ *)
(** ** The rows of printHitlist *)

Lemma row_at_lookup (rps : list (result * result)) i :
  row_at rps i = hit_row_of <$> rps !! Z.to_nat i.
Proof. unfold row_at. by destruct (rps !! Z.to_nat i) as [[a b]|]. Qed.

Lemma pair_up_zip (rs ps : list result) :
  length rs = length ps -> pair_up rs ps = Some (zip rs ps).
Proof.
  revert ps; induction rs as [|r rs IH]; intros [|p ps] Hl; simpl in *; try discriminate; [done|].
  rewrite IH by lia. reflexivity.
Qed.

Lemma emit_rows_seqZ (rps : list (result * result)) (s : Z) (k : nat) :
  (0 <= s)%Z -> (Z.to_nat s + k <= length rps)%nat ->
  emit_rows rps (seqZ s (Z.of_nat k)) = Some (take k (drop (Z.to_nat s) (map hit_row_of rps))).
Proof.
  revert s; induction k as [|k IH]; intros s Hs Hk.
  - rewrite seqZ_nil by lia. reflexivity.
  - rewrite seqZ_cons by lia. cbn [emit_rows].
    rewrite row_at_lookup.
    destruct (lookup_lt_is_Some_2 rps (Z.to_nat s)) as [ab Hab]; [lia|].
    rewrite Hab. simpl.
    replace (Z.pred (Z.of_nat (S k))) with (Z.of_nat k) by lia.
    rewrite IH by lia. simpl.
    rewrite (drop_S _ (hit_row_of ab) (Z.to_nat s))
      by (change (map hit_row_of rps) with (hit_row_of <$> rps); rewrite list_lookup_fmap, Hab; reflexivity).
    simpl. replace (Z.to_nat (Z.succ s)) with (S (Z.to_nat s)) by lia. reflexivity.
Qed.

Lemma hitlist_lengths sort_Sort (m : gmap string result) (vs1 vs2 : list result) :
  sort_Sort (Reverse lessByLines) vs1 ≡ₚ vs1 ->
  sort_Sort (Reverse lessByPercentage) vs2 ≡ₚ vs2 ->
  values_order m vs1 -> values_order m vs2 ->
  length (sort_Sort (Reverse lessByLines) vs1) = size m /\
  length (sort_Sort (Reverse lessByPercentage) vs2) = size m.
Proof.
  unfold values_order. intros Hs1 Hs2 H1 H2.
  split; by rewrite ?Hs1, ?Hs2, ?H1, ?H2, length_fmap, length_map_to_list.
Qed.

(** printHitlist with [limit = 0] never panics and prints one row per
    result: row [i] pairs the [i]-th result of the by-count ordering with
    the [i]-th of the by-fraction ordering, whatever permutations
    [sort.Sort] picks. *)
Lemma hitlist_no_limit_prints_all sort_Sort (m : gmap string result) (vs1 vs2 : list result) :
  sort_Sort (Reverse lessByLines) vs1 ≡ₚ vs1 ->
  sort_Sort (Reverse lessByPercentage) vs2 ≡ₚ vs2 ->
  values_order m vs1 -> values_order m vs2 ->
  printHitlist sort_Sort vs1 vs2 0 = Some (hitlist_rows sort_Sort vs1 vs2) /\
  length (hitlist_rows sort_Sort vs1 vs2) = size m.
Proof.
  intros Hs1 Hs2 H1 H2. destruct (hitlist_lengths sort_Sort m vs1 vs2 Hs1 Hs2 H1 H2) as [Hn1 Hn2].
  unfold printHitlist, hitlist_rows.
  rewrite pair_up_zip by lia. simpl.
  set (rps := zip (sort_Sort (Reverse lessByLines) vs1) (sort_Sort (Reverse lessByPercentage) vs2)).
  assert (Hl : length rps = size m) by (unfold rps; rewrite length_zip; lia).
  rewrite length_map, Hl. split; [|reflexivity].
  rewrite <- Hl. rewrite (emit_rows_seqZ rps 0 (length rps)) by lia.
  rewrite drop_0, take_ge by (rewrite length_map; lia). reflexivity.
Qed.

(** printHitlist with a non-zero [limit] no larger than the number of results
    prints the first [limit] of those rows, and no row when [limit] is
    negative, whatever permutations [sort.Sort] picks. *)
Lemma hitlist_limit_prefix sort_Sort (m : gmap string result) (vs1 vs2 : list result) (limit : Z) :
  sort_Sort (Reverse lessByLines) vs1 ≡ₚ vs1 ->
  sort_Sort (Reverse lessByPercentage) vs2 ≡ₚ vs2 ->
  values_order m vs1 -> values_order m vs2 ->
  limit <> 0%Z -> (limit <= Z.of_nat (size m))%Z ->
  printHitlist sort_Sort vs1 vs2 limit = Some (take (Z.to_nat limit) (hitlist_rows sort_Sort vs1 vs2)).
Proof.
  intros Hs1 Hs2 H1 H2 Hz Hle. destruct (hitlist_lengths sort_Sort m vs1 vs2 Hs1 Hs2 H1 H2) as [Hn1 Hn2].
  unfold printHitlist, hitlist_rows.
  rewrite pair_up_zip by lia. simpl.
  destruct (Z.eqb_spec limit 0); [contradiction|].
  destruct (Z_lt_le_dec limit 0) as [Hneg|Hpos].
  - rewrite seqZ_nil by lia. replace (Z.to_nat limit) with 0%nat by lia. reflexivity.
  - replace limit with (Z.of_nat (Z.to_nat limit)) at 1 by lia.
    rewrite emit_rows_seqZ by (rewrite ?length_zip; lia).
    by rewrite drop_0.
Qed.

(* ------------------------------------------------------------------ *)
(** ** Ties in the two orderings *)

(** The two sorts keep ties in input order: among results with the same
    MissCount (resp. the same MissFraction) the sorted slice lists them in
    the order the [range ctx.Results] loop appended them (for slices of at
    most 12 elements, where sort.Sort is an insertion sort). *)
Lemma hitlist_orderings_stable (vs : list result) :
  (length vs <= 12)%nat ->
  (forall k, List.filter (fun r => Nat.eqb (MissCount r) k) (insertionSort (Reverse lessByLines) vs) =
             List.filter (fun r => Nat.eqb (MissCount r) k) vs) /\
  (forall f, List.filter (fun r => PrimFloat.Leibniz.eqb (MissFraction r) f)
               (insertionSort (Reverse lessByPercentage) vs) =
             List.filter (fun r => PrimFloat.Leibniz.eqb (MissFraction r) f) vs).
Proof.
  intros _. split.
  - intros k. apply insertionSort_filter. intros a b Ha Hb.
    apply Nat.eqb_eq in Ha, Hb. unfold Reverse, lessByLines. rewrite Ha, Hb. apply Nat.ltb_irrefl.
  - intros f. apply insertionSort_filter. intros a b Ha Hb.
    apply FloatAxioms.Leibniz.eqb_spec in Ha, Hb.
    unfold Reverse, lessByPercentage. rewrite Ha, Hb. apply float_ltb_irrefl.
Qed.

(* ------------------------------------------------------------------ *)
(** ** src/main.go's ingestion loop *)

(** In src/main.go's ingestion loop a profile record whose path
    [filepath.Rel] rejects is skipped ([continue]) and the records after it
    are still ingested: the result is that of the list without it. *)
Lemma main_ingest_skips_bad_path canon (ps1 : list Profile) (p : Profile) (ps2 : list Profile)
    (m : gmap string main_result) :
  canon (FileName p) = None ->
  main_ingest_profiles canon (ps1 ++ p :: ps2) m = main_ingest_profiles canon (ps1 ++ ps2) m.
Proof.
  intros Hp. revert m; induction ps1 as [|q ps1 IH]; intros m; simpl.
  - by rewrite Hp.
  - destruct (canon (FileName q)); apply IH.
Qed.

(* ------------------------------------------------------------------ *)
(** ** The further properties at concrete inputs *)

Lemma lineCounter_io_eof_witness :
  Forall (fun c => Z.of_nat (length c) <= 32 * 1024)%Z ([[Byte.x61; Byte.x0a]] ++ [[Byte.x0a]]) /\
  (lineCounter (concat [[Byte.x61; Byte.x0a]] ++ [Byte.x0a]) < 2 ^ 63)%Z /\
  lineCounter_io (map (fun c => (c, None)) [[Byte.x61; Byte.x0a]] ++ ([Byte.x0a], Some EOF) :: [])
  = Some (2%Z, None).
Proof.
  split; [repeat constructor; simpl; lia|]. split; [vm_compute; reflexivity|].
  apply (lineCounter_io_eof [[Byte.x61; Byte.x0a]] [Byte.x0a] []);
    [repeat constructor; simpl; lia|vm_compute; reflexivity].
Defined.

Lemma lineCounter_io_error_witness :
  Forall (fun c => Z.of_nat (length c) <= 32 * 1024)%Z ([[Byte.x0a]] ++ [[Byte.x61]]) /\
  (lineCounter (concat [[Byte.x0a]] ++ [Byte.x61]) < 2 ^ 63)%Z /\
  lineCounter_io (map (fun c => (c, None)) [[Byte.x0a]] ++ ([Byte.x61], Some (ErrOther "io"%string)) :: [])
  = Some (1%Z, Some (ErrOther "io"%string)).
Proof.
  split; [repeat constructor; simpl; lia|]. split; [vm_compute; reflexivity|].
  apply (lineCounter_io_error [[Byte.x0a]] [Byte.x61] "io"%string []);
    [repeat constructor; simpl; lia|vm_compute; reflexivity].
Defined.

Lemma escaper_Read_fits_witness :
  (length (escape_bytes ([] ++ [Byte.x61; Byte.x22])) <= length [Byte.x30; Byte.x30; Byte.x30; Byte.x30])%nat /\
  escaper_Read [] [Byte.x30; Byte.x30; Byte.x30; Byte.x30] ([Byte.x61; Byte.x22], None) =
  Some ([Byte.x61; Byte.x5c; Byte.x22; Byte.x30], 3%nat, None, []).
Proof.
  split; [simpl; lia|].
  apply (escaper_Read_fits [] [Byte.x61; Byte.x22] [Byte.x30; Byte.x30; Byte.x30; Byte.x30] None).
  simpl; lia.
Defined.

Lemma escaper_Read_result_witness :
  escaper_Read [] [Byte.x30; Byte.x30] ([Byte.x22; Byte.x61], None) =
    Some ([Byte.x5c; Byte.x22], 2%nat, None, []) /\
  exists k, (k <= length ([] ++ [Byte.x22; Byte.x61]))%nat /\
    2%nat = length (escape_bytes (take k ([] ++ [Byte.x22; Byte.x61]))) /\
    [Byte.x5c; Byte.x22] = escape_bytes (take k ([] ++ [Byte.x22; Byte.x61])) ++ drop 2 [Byte.x30; Byte.x30] /\
    ((length [Byte.x30; Byte.x30] < length (escape_bytes ([] ++ [Byte.x22; Byte.x61])))%nat ->
     (k < length ([] ++ [Byte.x22; Byte.x61]))%nat).
Proof.
  assert (H : escaper_Read [] [Byte.x30; Byte.x30] ([Byte.x22; Byte.x61], None) =
              Some ([Byte.x5c; Byte.x22], 2%nat, None, [])) by (vm_compute; reflexivity).
  split; [exact H|].
  exact (proj2 (proj2 (escaper_Read_result [] [Byte.x22; Byte.x61] [Byte.x30; Byte.x30]
                          [Byte.x5c; Byte.x22] None 2 None [] H))).
Defined.

Lemma escaper_Read_straddle_panics_witness :
  (length ([] : list Byte.byte) + length [Byte.x61; Byte.x22] <= length [Byte.x30; Byte.x30])%nat /\
  [] ++ [Byte.x61; Byte.x22] = [Byte.x61] ++ Byte.x22 :: [] /\
  (length (escape_bytes [Byte.x61]) + 1 = length [Byte.x30; Byte.x30])%nat /\
  escaper_Read [] [Byte.x30; Byte.x30] ([Byte.x61; Byte.x22], None) = None.
Proof.
  split; [simpl; lia|]. split; [reflexivity|]. split; [reflexivity|].
  apply (escaper_Read_straddle_panics [] [Byte.x61; Byte.x22] [Byte.x61] [] [Byte.x30; Byte.x30] Byte.x22 None);
    [simpl; lia|reflexivity|left; reflexivity|reflexivity].
Defined.

Lemma ingest_profiles_stops_witness :
  bad_canonical (FileName (mkProfile "../bad.go" [])) = None /\
  ingest_profiles bad_canonical
    ([mkProfile "a.go" [mkBlock 1 1 1]] ++ mkProfile "../bad.go" [] :: [mkProfile "b.go" [mkBlock 1 1 1]]) ∅ =
  ingest_profiles bad_canonical [mkProfile "a.go" [mkBlock 1 1 1]] ∅.
Proof.
  split; [reflexivity|].
  apply ingest_profiles_stops. reflexivity.
Defined.

Lemma main_ingest_skips_bad_path_witness :
  bad_canonical (FileName (mkProfile "../bad.go" [])) = None /\
  main_ingest_profiles bad_canonical
    ([mkProfile "a.go" [mkBlock 1 1 1]] ++ mkProfile "../bad.go" [] :: [mkProfile "b.go" [mkBlock 1 1 1]]) ∅ =
  main_ingest_profiles bad_canonical ([mkProfile "a.go" [mkBlock 1 1 1]] ++ [mkProfile "b.go" [mkBlock 1 1 1]]) ∅.
Proof.
  split; [reflexivity|].
  apply main_ingest_skips_bad_path. reflexivity.
Defined.

Lemma overflowed_count_is_miss_witness :
  let r := mkResult "hot.go" 2 {[ 1%Z := (2 ^ 62)%Z ]} [] [] [] in
  (0 <= 1 < lines r)%Z /\ counts r !! 1%Z = Some (2 ^ 62)%Z /\
  add_count (2 ^ 62) (counts r) 1 !! 1%Z = Some (2 ^ 62 + 2 ^ 62 - 2 ^ 64)%Z /\
  In 1%Z (Misses (classify (set_counts (add_count (2 ^ 62) (counts r) 1) r))).
Proof.
  cbv zeta. split; [simpl; lia|]. split; [reflexivity|].
  apply (overflowed_count_is_miss (mkResult "hot.go" 2 {[ 1%Z := (2 ^ 62)%Z ]} [] [] []) 1 (2 ^ 62) (2 ^ 62));
    [simpl; lia|reflexivity|lia|lia|lia].
Defined.

Lemma classify_uncovered_nan_witness :
  let r := mkResult "empty.go" 2 ∅ [] [] [] in
  is_tally r /\ Hits (classify r) = [] /\ Misses (classify r) = [] /\
  is_nan (MissFraction (classify r)) = true.
Proof.
  cbv zeta. split; [repeat split|].
  apply classify_uncovered_nan; [repeat split|].
  intros ln _. apply lookup_empty.
Defined.

Lemma hitlist_no_limit_prints_all_witness :
  let rA := mkResult "a.go" 2 ∅ [0%Z] [1%Z] [] in
  values_order {[ "a.go"%string := rA ]} [rA] /\
  printHitlist insertionSort [rA] [rA] 0 = Some (hitlist_rows insertionSort [rA] [rA]) /\
  length (hitlist_rows insertionSort [rA] [rA]) = size ({[ "a.go"%string := rA ]} : gmap string result).
Proof.
  cbv zeta.
  assert (H : values_order {[ "a.go"%string := mkResult "a.go" 2 ∅ [0%Z] [1%Z] [] ]}
                [mkResult "a.go" 2 ∅ [0%Z] [1%Z] []]) by (unfold values_order; vm_compute; reflexivity).
  split; [exact H|].
  refine (hitlist_no_limit_prints_all insertionSort _ _ _ _ _ H H); vm_compute; reflexivity.
Defined.

Lemma hitlist_limit_prefix_witness :
  let rA := mkResult "a.go" 2 ∅ [0%Z] [1%Z] [] in
  let rB := mkResult "b.go" 2 ∅ [] [0%Z; 1%Z] [] in
  let m : gmap string result := {[ "a.go"%string := rA; "b.go"%string := rB ]} in
  values_order m [rA; rB] /\ (1 <= Z.of_nat (size m))%Z /\
  printHitlist insertionSort [rA; rB] [rA; rB] 1 = Some (take 1 (hitlist_rows insertionSort [rA; rB] [rA; rB])).
Proof.
  cbv zeta.
  assert (H : values_order {[ "a.go"%string := mkResult "a.go" 2 ∅ [0%Z] [1%Z] [];
                              "b.go"%string := mkResult "b.go" 2 ∅ [] [0%Z; 1%Z] [] ]}
                [mkResult "a.go" 2 ∅ [0%Z] [1%Z] []; mkResult "b.go" 2 ∅ [] [0%Z; 1%Z] []]).
  { unfold values_order. vm_compute. solve_Permutation. }
  split; [exact H|]. split; [vm_compute; discriminate|].
  refine (hitlist_limit_prefix insertionSort _ _ _ 1 _ _ H H _ _);
    [vm_compute; solve_Permutation|vm_compute; solve_Permutation|discriminate|vm_compute; discriminate].
Defined.

Lemma hitlist_orderings_stable_witness :
  let rA := mkResult "a.go" 2 ∅ [0%Z] [1%Z] [] in
  let rC := mkResult "c.go" 1 ∅ [] [0%Z] [] in
  (length [rA; rC] <= 12)%nat /\
  List.filter (fun r => Nat.eqb (MissCount r) 1) (insertionSort (Reverse lessByLines) [rA; rC]) = [rA; rC].
Proof.
  cbv zeta. split; [simpl; lia|].
  rewrite (proj1 (hitlist_orderings_stable [mkResult "a.go" 2 ∅ [0%Z] [1%Z] []; mkResult "c.go" 1 ∅ [] [0%Z] []]
                   ltac:(simpl; lia)) 1).
  reflexivity.
Defined.
